(** * The knitting pattern parser and the grid layout

    A shallow embedding of [knittingpattern/Parser.py]: the parser state is
    threaded explicitly, Python exceptions are the [Raise] case of a result
    type, Python objects that are mutated after their creation (rows,
    meshes) live in an arena and are named by their index. *)

From Stdlib Require Import ZArith Lia.
From stdpp Require Import countable strings gmap fin_maps list.
Local Open Scope Z_scope.
Set Warnings "-register-all".

(** ** Python values used as identifiers *)

(** The ids of rows and patterns come from JSON or from Python literals:
    integers, strings, lists, and tuples. *)
Inductive pyval : Type :=
| PInt (z : Z)
| PStr (s : string)
| PList (l : list pyval)
| PTuple (l : list pyval).

Fixpoint pyval_eq_dec (a b : pyval) : {a = b} + {a <> b}.
Proof.
  decide equality;
    solve [ apply Z.eq_dec | apply String.string_dec
          | apply (List.list_eq_dec pyval_eq_dec) ].
Defined.

Fixpoint pyval_to_tree (v : pyval) : gen_tree (Z + string) :=
  match v with
  | PInt z => GenLeaf (inl z)
  | PStr s => GenLeaf (inr s)
  | PList l => GenNode 0 (map pyval_to_tree l)
  | PTuple l => GenNode 1 (map pyval_to_tree l)
  end.

Fixpoint tree_to_pyval (t : gen_tree (Z + string)) : pyval :=
  match t with
  | GenLeaf (inl z) => PInt z
  | GenLeaf (inr s) => PStr s
  | GenNode O ts => PList (map tree_to_pyval ts)
  | GenNode _ ts => PTuple (map tree_to_pyval ts)
  end.

Fixpoint tree_to_pyval_to_tree (v : pyval) : tree_to_pyval (pyval_to_tree v) = v.
Proof.
  revert v. fix IH 1. intros [z|s|l|l]; simpl; try reflexivity.
  - f_equal. induction l as [|x l IHl]; simpl; [reflexivity|].
    by rewrite IH, IHl.
  - f_equal. induction l as [|x l IHl]; simpl; [reflexivity|].
    by rewrite IH, IHl.
Qed.

#[global] Instance pyval_eq_decision : EqDecision pyval := pyval_eq_dec.
#[global] Instance pyval_countable : Countable pyval :=
  inj_countable' pyval_to_tree tree_to_pyval tree_to_pyval_to_tree.

(** A Python dict accepts hashable keys only: a list is not hashable, and a
    tuple is hashable when all its elements are. *)
Fixpoint hashable (v : pyval) : bool :=
  match v with
  | PInt _ | PStr _ => true
  | PList _ => false
  | PTuple l => forallb hashable l
  end.

(** ** Exceptions and results *)

Inductive parsing_error_text : Type :=
| NoPatternTypeGiven
| WrongPatternType (type_ : string).

Inductive exn : Type :=
| KeyError (key : pyval)
| TypeError
| AssertionError
| RecursionError
| ParsingError (text : parsing_error_text).

Inductive result (A : Type) : Type :=
| Raise (e : exn)
| Return (a : A).
Arguments Raise {A} e.
Arguments Return {A} a.

#[global] Instance result_ret : MRet result := @Return.
#[global] Instance result_bind : MBind result := fun A B f m =>
  match m with
  | Raise e => Raise e
  | Return a => f a
  end.

Definition raised {A} (m : result A) : Prop := ∃ e, m = Raise e.

(** ** Attribute names (Parser.py, lines 4 to 24) *)

Definition ID : string := "id".
Definition NAME : string := "name".
Definition TYPE : string := "type".
Definition VERSION : string := "version".
Definition FROM : string := "from".
Definition TO : string := "to".
Definition DEFAULT_START : Z := 0.
Definition KNITTING_PATTERN_TYPE : string := "knitting pattern".

(** ** Descriptors: the dicts handed to the parser

    A key that the parser reads with [values[KEY]] or [values.get(KEY, d)]
    is an optional field. *)

(** An instruction descriptor, after the instruction library has resolved
    its type: the declared numbers of consumed and produced meshes. *)
Record instruction_desc : Type := {
  declared_consumed : nat;
  declared_produced : nat
}.

Record row_desc : Type := {
  rd_id : option pyval;
  rd_same_as : option pyval;
  rd_instructions : option (list instruction_desc)
}.

Record endpoint_desc : Type := {
  ed_id : option pyval;
  ed_start : option Z
}.

Record connection_desc : Type := {
  cd_from : option endpoint_desc;
  cd_to : option endpoint_desc;
  cd_meshes : option Z
}.

Record pattern_desc : Type := {
  pd_id : option pyval;
  pd_name : option string;
  pd_rows : option (list row_desc);
  pd_connections : option (list connection_desc)
}.

Record set_desc : Type := {
  sd_type : option string;
  sd_version : option string;
  sd_patterns : option (list pattern_desc);
  sd_comment : option string
}.

(** [values[key]] *)
Definition getitem {A} (key : string) (field : option A) : result A :=
  match field with
  | Some a => Return a
  | None => Raise (KeyError (PStr key))
  end.

(** ** Objects *)

Inductive role : Type := produced | consumed.

(** A mesh knows the instruction that owns it: the row and the index of the
    instruction in the row. Its link is kept in the [links] table. *)
Record Mesh : Type := {
  mesh_row : nat;
  mesh_instruction : nat;
  mesh_role : role
}.

Record Instruction : Type := {
  consumed_meshes : list nat;
  produced_meshes : list nat
}.

Record Row : Type := {
  row_id : pyval;
  row_values : row_desc;
  row_inherited : list nat;
  row_instructions : list Instruction
}.

Record KnittingPattern : Type := {
  pattern_id : pyval;
  pattern_name : string;
  pattern_rows : list nat
}.

Record KnittingPatternSet : Type := {
  set_type : string;
  set_version : string;
  set_patterns : list KnittingPattern;
  set_comment : option string
}.

#[global] Instance Row_inhabited : Inhabited Row :=
  populate {| row_id := PInt 0;
              row_values := {| rd_id := None; rd_same_as := None;
                               rd_instructions := None |};
              row_inherited := []; row_instructions := [] |}.

(** The fields of the parser ([_id_cache], [_pattern_set],
    [_inheritance_todos], [_instruction_todos]) and the arena of the objects
    the parser has created: rows, meshes, and the link of each mesh. *)
Record state : Type := mkState {
  _id_cache : gmap pyval nat;
  _pattern_set : option KnittingPatternSet;
  _inheritance_todos : list (nat * pyval);
  _instruction_todos : list nat;
  rows : list Row;
  meshes : list Mesh;
  links : gmap nat nat
}.

Definition set_id_cache (c : gmap pyval nat) (s : state) : state :=
  mkState c (_pattern_set s) (_inheritance_todos s) (_instruction_todos s)
          (rows s) (meshes s) (links s).
Definition set_pattern_set (p : option KnittingPatternSet) (s : state) : state :=
  mkState (_id_cache s) p (_inheritance_todos s) (_instruction_todos s)
          (rows s) (meshes s) (links s).
Definition set_inheritance_todos (t : list (nat * pyval)) (s : state) : state :=
  mkState (_id_cache s) (_pattern_set s) t (_instruction_todos s)
          (rows s) (meshes s) (links s).
Definition set_instruction_todos (t : list nat) (s : state) : state :=
  mkState (_id_cache s) (_pattern_set s) (_inheritance_todos s) t
          (rows s) (meshes s) (links s).
Definition set_rows (r : list Row) (s : state) : state :=
  mkState (_id_cache s) (_pattern_set s) (_inheritance_todos s)
          (_instruction_todos s) r (meshes s) (links s).
Definition set_meshes (m : list Mesh) (s : state) : state :=
  mkState (_id_cache s) (_pattern_set s) (_inheritance_todos s)
          (_instruction_todos s) (rows s) m (links s).
Definition set_links (l : gmap nat nat) (s : state) : state :=
  mkState (_id_cache s) (_pattern_set s) (_inheritance_todos s)
          (_instruction_todos s) (rows s) (meshes s) l.

(** ** Parser._start and Parser._to_id *)

(** [_start]: the id cache, the pattern set and both queues are replaced by
    fresh empty ones. *)
Definition _start (s : state) : state :=
  set_instruction_todos []
    (set_inheritance_todos []
      (set_pattern_set None
        (set_id_cache ∅ s))).

(** [tuple(id_) if isinstance(id_, list) else id_] *)
Definition _to_id (id_ : pyval) : pyval :=
  match id_ with
  | PList l => PTuple l
  | _ => id_
  end.

(** [self._id_cache[key]] *)
Definition id_cache_get (key : pyval) (s : state) : result nat :=
  if hashable key then
    match _id_cache s !! key with
    | Some r => Return r
    | None => Raise (KeyError key)
    end
  else Raise TypeError.

(** [self._id_cache[key] = row] *)
Definition id_cache_set (key : pyval) (row : nat) (s : state) : result state :=
  if hashable key then Return (set_id_cache (<[key := row]> (_id_cache s)) s)
  else Raise TypeError.

(** ** Rows, the deferred queues and the instructions of a row *)

(** Modelled from the spec: the class of rows ([spec.new_row]) is not part
    of the sources at hand. A row is created once, with its id and its
    descriptor, without instructions and without a row to inherit from. *)
Definition new_row (id_ : pyval) (values : row_desc) (s : state) : nat * state :=
  (length (rows s),
   set_rows (rows s ++ [{| row_id := id_; row_values := values;
                           row_inherited := []; row_instructions := [] |}]) s).

Definition _delay_inheritance (prototype : nat) (parent_id : pyval) (s : state) : state :=
  set_inheritance_todos (_inheritance_todos s ++ [(prototype, parent_id)]) s.

Definition _delay_instructions (row : nat) (s : state) : state :=
  set_instruction_todos (_instruction_todos s ++ [row]) s.

(** [Parser._row] *)
Definition _row (values : row_desc) (s : state) : result (nat * state) :=
  id_ ← getitem ID (rd_id values);
  let row_id := _to_id id_ in
  let '(row, s) := new_row row_id values s in
  let s := match rd_same_as values with
           | Some parent => _delay_inheritance row (_to_id parent) s
           | None => s
           end in
  let s := _delay_instructions row s in
  s ← id_cache_set row_id row s;
  Return (row, s).

(** [Parser._rows]: the row collection is the list of the rows in the order
    of the descriptors. *)
Fixpoint _rows (spec : list row_desc) (s : state) : result (list nat * state) :=
  match spec with
  | [] => Return ([], s)
  | row :: spec =>
      '(r, s) ← _row row s;
      '(rs, s) ← _rows spec s;
      Return (r :: rs, s)
  end.

(** Modelled from the spec: [inherit_from] belongs to the class of rows,
    which is not part of the sources at hand. The row inherited from is
    recorded for attribute defaulting; the most recent one comes first. *)
Definition inherit_from (prototype parent : nat) (s : state) : state :=
  let row := rows s !!! prototype in
  set_rows (<[prototype := {| row_id := row_id row; row_values := row_values row;
                              row_inherited := parent :: row_inherited row;
                              row_instructions := row_instructions row |}]>
              (rows s)) s.

(** The loop of [_finish_inheritance]; [todos] is the queue in the order in
    which [pop()] takes its elements, last one first. *)
Fixpoint finish_inheritance_loop (todos : list (nat * pyval)) (s : state) : result state :=
  match todos with
  | [] => Return s
  | (prototype, parent_id) :: todos =>
      let s := set_inheritance_todos (reverse todos) s in
      parent ← id_cache_get parent_id s;
      finish_inheritance_loop todos (inherit_from prototype parent s)
  end.

(** [Parser._finish_inheritance] *)
Definition _finish_inheritance (s : state) : result state :=
  finish_inheritance_loop (reverse (_inheritance_todos s)) s.

(** Modelled from the spec: [row.get(INSTRUCTIONS, [])] belongs to the class
    of rows. The row's own descriptor is asked first, then the rows it
    inherits from; [None] stands for the default. A chain of inheritance
    that does not end exhausts the recursion depth. *)
Fixpoint row_get_instructions (depth : nat) (rs : list Row) (row : nat)
  : result (option (list instruction_desc)) :=
  match depth with
  | O => Raise RecursionError
  | S depth =>
      match rd_instructions (row_values (rs !!! row)) with
      | Some l => Return (Some l)
      | None =>
          (fix first_of (bases : list nat) :=
             match bases with
             | [] => Return None
             | base :: bases =>
                 found ← row_get_instructions depth rs base;
                 match found with
                 | Some l => Return (Some l)
                 | None => first_of bases
                 end
             end) (row_inherited (rs !!! row))
      end
  end.

(** Modelled from the spec: extending [row.instructions] by a descriptor
    instantiates the instruction with its declared numbers of meshes; each
    mesh is a new object owned by that instruction, and it has no link. *)
Definition new_meshes (row index : nat) (r : role) (n : nat) (s : state)
  : list nat * state :=
  (seq (length (meshes s)) n,
   set_meshes (meshes s ++ replicate n {| mesh_row := row;
                                          mesh_instruction := index;
                                          mesh_role := r |}) s).

Definition append_instruction (row : nat) (spec : instruction_desc) (s : state) : state :=
  let r := rows s !!! row in
  let index := length (row_instructions r) in
  let '(p, s) := new_meshes row index produced (declared_produced spec) s in
  let '(c, s) := new_meshes row index consumed (declared_consumed spec) s in
  set_rows (<[row := {| row_id := row_id r; row_values := row_values r;
                        row_inherited := row_inherited r;
                        row_instructions :=
                          row_instructions r ++
                          [{| consumed_meshes := c; produced_meshes := p |}] |}]>
              (rows s)) s.

Definition instructions_extend (row : nat) (specs : list instruction_desc) (s : state) : state :=
  foldl (fun s spec => append_instruction row spec s) s specs.

(** The loop of [_finish_instructions], in the order of [pop()]. *)
Fixpoint finish_instructions_loop (todos : list nat) (s : state) : result state :=
  match todos with
  | [] => Return s
  | row :: todos =>
      let s := set_instruction_todos (reverse todos) s in
      found ← row_get_instructions (S (length (rows s))) (rows s) row;
      finish_instructions_loop todos
        (instructions_extend row (default [] found) s)
  end.

(** [Parser._finish_instructions] *)
Definition _finish_instructions (s : state) : result state :=
  finish_instructions_loop (reverse (_instruction_todos s)) s.

(** ** Meshes of a row and the links *)

(** Modelled from the spec: the meshes of a row are the concatenation, in
    order, of the meshes of its instructions. *)
Definition row_produced_meshes (r : Row) : list nat :=
  concat (produced_meshes <$> row_instructions r).
Definition row_consumed_meshes (r : Row) : list nat :=
  concat (consumed_meshes <$> row_instructions r).
Definition number_of_produced_meshes (r : Row) : Z :=
  Z.of_nat (length (row_produced_meshes r)).
Definition number_of_consumed_meshes (r : Row) : Z :=
  Z.of_nat (length (row_consumed_meshes r)).

(** Modelled from the spec: [Mesh.disconnect] and [Mesh.connect_to] belong
    to the class of meshes, which is not part of the sources at hand. A mesh
    has at most one counterpart and the link is mutual; a connection made
    later silently replaces an earlier one, so the former counterparts of
    both meshes lose their link. *)
Definition disconnect (m : nat) (l : gmap nat nat) : gmap nat nat :=
  match l !! m with
  | Some other => delete other (delete m l)
  | None => l
  end.

Definition connect_to (produced_mesh consumed_mesh : nat) (l : gmap nat nat)
  : gmap nat nat :=
  let l := disconnect consumed_mesh l in
  let l := disconnect produced_mesh l in
  <[consumed_mesh := produced_mesh]> (<[produced_mesh := consumed_mesh]> l).

(** [sequence[start:stop]] for [0 <= start <= stop]; the end of the
    sequence cuts the slice short. *)
Definition slice {A} (l : list A) (start stop : Z) : list A :=
  take (Z.to_nat (stop - start)) (drop (Z.to_nat start) l).

(** [assert condition] *)
Definition assert (condition : bool) : result unit :=
  if condition then Return tt else Raise AssertionError.

(** The body of the loop of [_connect_rows] up to [mesh_pairs]. *)
Definition mesh_pairs (connection : connection_desc) (s : state)
  : result (list (nat * nat)) :=
  from ← getitem FROM (cd_from connection);
  from_id ← getitem ID (ed_id from);
  let from_row_id := _to_id from_id in
  from_row ← id_cache_get from_row_id s;
  let from_row := rows s !!! from_row in
  let from_row_start_index := default DEFAULT_START (ed_start from) in
  let from_row_number_of_possible_meshes :=
    number_of_produced_meshes from_row - from_row_start_index in
  to ← getitem TO (cd_to connection);
  to_id ← getitem ID (ed_id to);
  let to_row_id := _to_id to_id in
  to_row ← id_cache_get to_row_id s;
  let to_row := rows s !!! to_row in
  let to_row_start_index := default DEFAULT_START (ed_start to) in
  let to_row_number_of_possible_meshes :=
    number_of_consumed_meshes to_row - to_row_start_index in
  let meshes := Z.min from_row_number_of_possible_meshes
                      to_row_number_of_possible_meshes in
  let number_of_meshes := default meshes (cd_meshes connection) in
  let from_row_stop_index := from_row_start_index + number_of_meshes in
  let to_row_stop_index := to_row_start_index + number_of_meshes in
  _ ← assert (bool_decide (0 ≤ from_row_start_index ≤ from_row_stop_index));
  let produced_meshes :=
    slice (row_produced_meshes from_row) from_row_start_index from_row_stop_index in
  _ ← assert (bool_decide (0 ≤ to_row_start_index ≤ to_row_stop_index));
  let consumed_meshes :=
    slice (row_consumed_meshes to_row) to_row_start_index to_row_stop_index in
  _ ← assert (bool_decide (length produced_meshes = length consumed_meshes));
  Return (zip produced_meshes consumed_meshes).

(** [for produced_mesh, consumed_mesh in mesh_pairs: ...] *)
Definition connect_pairs (pairs : list (nat * nat)) (l : gmap nat nat) : gmap nat nat :=
  foldl (fun l pair => connect_to pair.1 pair.2 l) l pairs.

(** [Parser._connect_rows] *)
Fixpoint _connect_rows (connections : list connection_desc) (s : state) : result state :=
  match connections with
  | [] => Return s
  | connection :: connections =>
      pairs ← mesh_pairs connection s;
      _connect_rows connections (set_links (connect_pairs pairs (links s)) s)
  end.

(** ** Patterns and pattern sets *)

(** [Parser._pattern] *)
Definition _pattern (base : pattern_desc) (s : state) : result (KnittingPattern * state) :=
  '(rows, s) ← _rows (default [] (pd_rows base)) s;
  s ← _finish_inheritance s;
  s ← _finish_instructions s;
  s ← _connect_rows (default [] (pd_connections base)) s;
  id_ ← getitem ID (pd_id base);
  let id_ := _to_id id_ in
  name ← getitem NAME (pd_name base);
  Return ({| pattern_id := id_; pattern_name := name; pattern_rows := rows |}, s).

(** The loop of [Parser._fill_pattern_collection]. *)
Fixpoint fill_patterns (patterns : list pattern_desc) (s : state)
  : result (list KnittingPattern * state) :=
  match patterns with
  | [] => Return ([], s)
  | pattern_to_parse :: patterns =>
      '(parsed_pattern, s) ← _pattern pattern_to_parse s;
      '(collection, s) ← fill_patterns patterns s;
      Return (parsed_pattern :: collection, s)
  end.

(** [Parser._fill_pattern_collection] *)
Definition _fill_pattern_collection (values : set_desc) (s : state)
  : result (list KnittingPattern * state) :=
  fill_patterns (default [] (sd_patterns values)) s.

(** [Parser._get_type] *)
Definition _get_type (values : set_desc) : result string :=
  match sd_type values with
  | None => Raise (ParsingError NoPatternTypeGiven)
  | Some type_ =>
      if bool_decide (type_ = KNITTING_PATTERN_TYPE) then Return type_
      else Raise (ParsingError (WrongPatternType type_))
  end.

(** [Parser._get_version] *)
Definition _get_version (values : set_desc) : result string :=
  getitem VERSION (sd_version values).

(** [Parser._create_pattern_set] *)
Definition _create_pattern_set (pattern : list KnittingPattern) (values : set_desc)
  (s : state) : result state :=
  type_ ← _get_type values;
  version ← _get_version values;
  let comment := sd_comment values in
  Return (set_pattern_set
            (Some {| set_type := type_; set_version := version;
                     set_patterns := pattern; set_comment := comment |}) s).

(** Python creates the objects of a run anew, and after [_start] nothing of
    an earlier run can be reached from the parser: the arena of a run is
    empty when the run begins. *)
Definition new_arena (s : state) : state :=
  set_links ∅ (set_meshes [] (set_rows [] s)).

(** [Parser.knitting_pattern_set]; the final state is returned with the
    pattern set, since the pattern set names its rows in the arena. *)
Definition knitting_pattern_set (values : set_desc) (s : state)
  : result (option KnittingPatternSet * state) :=
  let s := new_arena (_start s) in
  '(pattern_collection, s) ← _fill_pattern_collection values s;
  s ← _create_pattern_set pattern_collection values s;
  Return (_pattern_set s, s).

(** ** Examples of descriptors *)

Definition knit : instruction_desc :=
  {| declared_consumed := 1; declared_produced := 1 |}.

Definition row_of (id_ : pyval) (instructions : list instruction_desc) : row_desc :=
  {| rd_id := Some id_; rd_same_as := None; rd_instructions := Some instructions |}.

Definition connection_of (from to : pyval) : connection_desc :=
  {| cd_from := Some {| ed_id := Some from; ed_start := None |};
     cd_to := Some {| ed_id := Some to; ed_start := None |};
     cd_meshes := None |}.

Definition pattern_of (id_ : pyval) (name : string) (rows : list row_desc)
  (connections : list connection_desc) : pattern_desc :=
  {| pd_id := Some id_; pd_name := Some name; pd_rows := Some rows;
     pd_connections := Some connections |}.

Definition set_of (patterns : list pattern_desc) : set_desc :=
  {| sd_type := Some KNITTING_PATTERN_TYPE; sd_version := Some "0.1"%string;
     sd_patterns := Some patterns; sd_comment := None |}.

Definition initial_state : state := mkState ∅ None [] [] [] [] ∅.

(** Four rows of four stitches, each row connected to the next. *)
Definition block4x4_pattern : pattern_desc :=
  pattern_of (PStr "knit") "knit 4x4"
    [row_of (PInt 1) [knit; knit; knit; knit];
     row_of (PInt 2) [knit; knit; knit; knit];
     row_of (PInt 3) [knit; knit; knit; knit];
     row_of (PInt 4) [knit; knit; knit; knit]]
    [connection_of (PInt 1) (PInt 2);
     connection_of (PInt 2) (PInt 3);
     connection_of (PInt 3) (PInt 4)].

Definition block4x4 : set_desc := set_of [block4x4_pattern].

(** ** The grid layout

    Modelled from the spec: the layout engine ([GridLayout]) is not part of
    the sources at hand, only its tests are. The definitions below follow
    the algorithm of the spec, section 4.3, rule by rule. *)

Record InstructionInGrid : Type := {
  point_row : nat;
  point_index : nat;
  x : Z;
  y : Z;
  width : Z;
  height : Z
}.

Record RowInGrid : Type := {
  grid_row : nat;
  grid_row_y : Z
}.

Record Connection : Type := {
  start : InstructionInGrid;
  stop : InstructionInGrid
}.

Section GridLayout.
Variable s : state.
Variable pattern : KnittingPattern.

(** The mesh a mesh is linked to, with its owner. *)
Definition counterpart (m : nat) : option Mesh :=
  other ← links s !! m; meshes s !! other.

(** The rows of the pattern whose production feeds the row. *)
Definition producer_rows (row : nat) : list nat :=
  filter (fun r => r ∈ pattern_rows pattern)
    (omap (fun m => mesh_row <$> counterpart m)
          (row_consumed_meshes (rows s !!! row))).

Definition y_of (placed : list RowInGrid) (row : nat) : option Z :=
  grid_row_y <$> find (fun g => bool_decide (grid_row g = row)) placed.

(** Rule 2: a row without producer is at [y = 0]; another row is one
    below the lowest of its producers. *)
Definition row_y (placed : list RowInGrid) (row : nat) : Z :=
  match omap (y_of placed) (producer_rows row) with
  | [] => 0
  | y0 :: ys => foldr Z.max y0 ys + 1
  end.

(** Rule 1: the next row to place is the first row, in the order of the
    pattern, all of whose producers are placed. *)
Definition ready (placed : list RowInGrid) (row : nat) : bool :=
  forallb (fun r => bool_decide (is_Some (y_of placed r))) (producer_rows row).

Fixpoint place_rows (n : nat) (placed : list RowInGrid) (pending : list nat)
  : list RowInGrid :=
  match n with
  | O => placed
  | S n =>
      match find (ready placed) pending with
      | None => placed
      | Some row =>
          place_rows n
            (placed ++ [{| grid_row := row; grid_row_y := row_y placed row |}])
            (filter (fun r => r ≠ row) pending)
      end
  end.

(** The order of the walk: [y] ascending, then the order of the rows in
    the pattern. *)
Fixpoint insert_row (g : RowInGrid) (sorted : list RowInGrid) : list RowInGrid :=
  match sorted with
  | [] => [g]
  | h :: sorted' =>
      if bool_decide (grid_row_y g < grid_row_y h) then g :: sorted
      else h :: insert_row g sorted'
  end.

Definition rows_in_grid : list RowInGrid :=
  let placed :=
    place_rows (length (pattern_rows pattern)) [] (pattern_rows pattern) in
  foldl (fun sorted g => insert_row g sorted) []
    (omap (fun row => find (fun g => bool_decide (grid_row g = row)) placed)
          (pattern_rows pattern)).

Definition point_of (points : list InstructionInGrid) (m : Mesh)
  : option InstructionInGrid :=
  find (fun p => bool_decide (point_row p = mesh_row m ∧
                              point_index p = mesh_instruction m)) points.

(** The placed instruction that produces the first consumed mesh. *)
Definition producer_point (points : list InstructionInGrid) (i : Instruction)
  : option InstructionInGrid :=
  m ← head (consumed_meshes i); owner ← counterpart m; point_of points owner.

(** Rule 3: the width is the number of produced meshes when it is at
    least 1, else 0. *)
Definition width_of (i : Instruction) : Z :=
  let n := Z.of_nat (length (produced_meshes i)) in
  if bool_decide (1 ≤ n) then n else 0.

(** Rule 3: the [x] of the producer of the first consumed mesh when there
    is one, else the instructions are packed from left to right. *)
Fixpoint place_instructions (row : nat) (row_y : Z) (index : nat)
  (previous : option InstructionInGrid) (instructions : list Instruction)
  (points : list InstructionInGrid) : list InstructionInGrid :=
  match instructions with
  | [] => points
  | i :: instructions =>
      let packed := match previous with
                    | Some q => x q + width q
                    | None => 0
                    end in
      let x := match producer_point points i with
               | Some q => x q
               | None => packed
               end in
      let p := {| point_row := row; point_index := index; x := x; y := row_y;
                  width := width_of i; height := 1 |} in
      place_instructions row row_y (S index) (Some p) instructions (points ++ [p])
  end.

Definition instructions_in_grid : list InstructionInGrid :=
  foldl (fun points g =>
           place_instructions (grid_row g) (grid_row_y g) 0 None
             (row_instructions (rows s !!! grid_row g)) points)
        [] rows_in_grid.

(** Rule 6: a link between two placed instructions is a connection of the
    grid unless its ends are adjacent in the same column. *)
Definition connections_of (points : list InstructionInGrid) (p : InstructionInGrid)
  : list Connection :=
  omap (fun m =>
          owner ← counterpart m;
          q ← point_of points owner;
          if bool_decide (x q = x p ∧ y q = y p + 1) then None
          else Some {| start := p; stop := q |})
       (default [] (produced_meshes <$>
                      row_instructions (rows s !!! point_row p) !! point_index p)).

Definition connections_in_grid : list Connection :=
  let points := instructions_in_grid in
  concat (map (connections_of points) points).

Definition walk_instructions {A} (f : InstructionInGrid → A) : list A :=
  map f instructions_in_grid.
Definition walk_rows {A} (f : RowInGrid → A) : list A :=
  map f rows_in_grid.
Definition walk_connections {A} (f : Connection → A) : list A :=
  map f connections_in_grid.

(** Rule 7: [(min_x, min_y, max_x, max_y)], the maxima exclusive. *)
Definition bounding_box : option (Z * Z * Z * Z) :=
  match instructions_in_grid, rows_in_grid with
  | p :: points, g :: grid_rows =>
      Some (foldr Z.min (x p) (map x points),
            foldr Z.min (y p) (map y points),
            foldr Z.max (x p + width p) (map (fun q => x q + width q) points),
            foldr Z.max (grid_row_y g) (map grid_row_y grid_rows) + 1)
  | _, _ => None
  end.
End GridLayout.

(** * Vocabulary of the properties *)

(** The row object that [_row] creates for a descriptor. *)
Definition row_created (values : row_desc) : Row :=
  {| row_id := _to_id (default (PInt 0) (rd_id values)); row_values := values;
     row_inherited := []; row_instructions := [] |}.

Arguments row_created : simpl never.

Definition inheritance_delayed (row : nat) (values : row_desc) : list (nat * pyval) :=
  match rd_same_as values with
  | Some parent => [(row, _to_id parent)]
  | None => []
  end.

Definition cache_rows (c : gmap pyval nat) (l : list (nat * row_desc)) : gmap pyval nat :=
  foldl (fun c p => <[row_id (row_created p.2) := p.1]> c) c l.

(** What [row.instructions.extend] leaves as it is. *)
Definition extends (s s' : state) : Prop :=
  _id_cache s' = _id_cache s ∧
  _pattern_set s' = _pattern_set s ∧
  _inheritance_todos s' = _inheritance_todos s ∧
  links s' = links s ∧
  row_id <$> rows s' = row_id <$> rows s ∧
  row_values <$> rows s' = row_values <$> rows s ∧
  row_inherited <$> rows s' = row_inherited <$> rows s.

Definition symmetric (l : gmap nat nat) : Prop :=
  ∀ a b, l !! a = Some b → l !! b = Some a.

(** The ids of the rows a connection names, as the parser looks them up. *)
Definition endpoint_id (endpoint : option endpoint_desc) : option pyval :=
  ed ← endpoint; _to_id <$> ed_id ed.

(** The canonical ids of the rows of a pattern descriptor, of the rows its
    rows are the same as, and of the rows its connections name. *)
Definition rows_of_pattern (base : pattern_desc) : list row_desc :=
  default [] (pd_rows base).
Definition connections_of_pattern (base : pattern_desc) : list connection_desc :=
  default [] (pd_connections base).
Definition row_ids (base : pattern_desc) : list pyval :=
  omap (fun values => _to_id <$> rd_id values) (rows_of_pattern base).
Definition same_as_ids (base : pattern_desc) : list pyval :=
  omap (fun values => _to_id <$> rd_same_as values) (rows_of_pattern base).
Definition connection_ids (base : pattern_desc) : list pyval :=
  omap (fun c => endpoint_id (cd_from c)) (connections_of_pattern base) ++
  omap (fun c => endpoint_id (cd_to c)) (connections_of_pattern base).

Definition patterns_of_set (values : set_desc) : list pattern_desc :=
  default [] (sd_patterns values).

(** [_pattern] up to the call of [_connect_rows], and from it. *)
Definition rows_finished (base : pattern_desc) (s : state) : result (list nat * state) :=
  '(rows, s) ← _rows (rows_of_pattern base) s;
  s ← _finish_inheritance s;
  s ← _finish_instructions s;
  Return (rows, s).

Definition connect_and_build (base : pattern_desc) (rows : list nat) (s : state)
  : result (KnittingPattern * state) :=
  s ← _connect_rows (connections_of_pattern base) s;
  id_ ← getitem ID (pd_id base);
  name ← getitem NAME (pd_name base);
  Return ({| pattern_id := _to_id id_; pattern_name := name; pattern_rows := rows |}, s).

(** An instruction instantiates a descriptor when it has the declared
    numbers of meshes. *)
Definition instantiates (i : Instruction) (d : instruction_desc) : Prop :=
  length (consumed_meshes i) = declared_consumed d ∧
  length (produced_meshes i) = declared_produced d.

(** The instruction list of a row is populated: it instantiates, one by one,
    the instruction descriptors that the row gets. *)
Definition populated (s : state) (row : nat) : Prop :=
  ∃ found,
    row_get_instructions (S (length (rows s))) (rows s) row = Return found ∧
    Forall2 instantiates (row_instructions (rows s !!! row)) (default [] found).


(** The first pattern of a parsed set, with the arena it lives in. *)
Definition parsed_pattern (values : set_desc) : option (state * KnittingPattern) :=
  match knitting_pattern_set values initial_state with
  | Return (Some pattern_set, s) => pattern ← head (set_patterns pattern_set); Some (s, pattern)
  | _ => None
  end.

(** [[(x, y) for y in range(4) for x in range(4)]] *)
Definition coordinates_4x4 : list (Z * Z) :=
  y ← seqZ 0 4; x ← seqZ 0 4; [(x, y)].

(** The state in which the connections of a pattern are resolved, when the
    pattern is the first one of a set. *)
Definition state_at_connections (base : pattern_desc) : state :=
  match rows_finished base initial_state with
  | Return (_, s) => s
  | Raise _ => initial_state
  end.

Definition connection_of_meshes (from to : pyval) (meshes : Z) : connection_desc :=
  {| cd_from := Some {| ed_id := Some from; ed_start := None |};
     cd_to := Some {| ed_id := Some to; ed_start := None |};
     cd_meshes := Some meshes |}.

(** Two rows of four stitches and a connection of ten meshes: both stop
    indices are 10, beyond the 4 meshes of either row. *)
Definition overrun_connection : connection_desc :=
  connection_of_meshes (PInt 1) (PInt 2) 10.
Definition overrun_pattern : pattern_desc :=
  pattern_of (PStr "knit") "overrun"
    [row_of (PInt 1) [knit; knit; knit; knit];
     row_of (PInt 2) [knit; knit; knit; knit]]
    [overrun_connection].
Definition overrun_set : set_desc := set_of [overrun_pattern].

(** A row of four stitches above a row of two, and a connection of three
    meshes: only the stop index of the lower row is out of range. *)
Definition short_connection : connection_desc :=
  connection_of_meshes (PInt 1) (PInt 2) 3.
Definition short_pattern : pattern_desc :=
  pattern_of (PStr "knit") "short"
    [row_of (PInt 1) [knit; knit; knit; knit]; row_of (PInt 2) [knit; knit]]
    [short_connection].

(** A connection to a row that does not exist. *)
Definition unknown_pattern : pattern_desc :=
  pattern_of (PStr "knit") "unknown"
    [row_of (PInt 1) [knit; knit]; row_of (PInt 2) [knit; knit]]
    [connection_of (PInt 1) (PInt 9)].
Definition unknown_set : set_desc := set_of [unknown_pattern].

(** Two patterns: the second one connects a row of the first one to its own
    row, and defines a row with an id of the first one. *)
Definition first_pattern : pattern_desc :=
  pattern_of (PStr "first") "first"
    [row_of (PInt 1) [knit; knit]; row_of (PInt 2) [knit; knit]]
    [connection_of (PInt 1) (PInt 2)].
Definition second_pattern : pattern_desc :=
  pattern_of (PStr "second") "second"
    [row_of (PInt 3) [knit; knit]; row_of (PInt 1) [knit]]
    [connection_of (PInt 2) (PInt 3)].

Definition list_id : list pyval := [PInt 1; PStr "a"].

(** The first pattern parsed, and the second one parsed after it. *)
Definition parsed_or_empty (r : result (KnittingPattern * state)) : KnittingPattern * state :=
  match r with
  | Return parsed => parsed
  | Raise _ => ({| pattern_id := PInt 0; pattern_name := ""; pattern_rows := [] |},
                initial_state)
  end.

(** ** Vocabulary of the further properties *)

(** The row descriptors that [_row] accepts: an id is given and, made a
    tuple when it is a list, it can be the key of a dict. *)
Definition row_accepted (values : row_desc) : Prop :=
  ∃ id_, rd_id values = Some id_ ∧ hashable (_to_id id_) = true.

(** A parsed pattern has the id, made a tuple when it is a list, and the
    name of its descriptor. *)
Definition pattern_of_descriptor (p : KnittingPattern) (base : pattern_desc) : Prop :=
  _to_id <$> pd_id base = Some (pattern_id p) ∧ pd_name base = Some (pattern_name p).

(** A descriptor key that is absent or holds the empty list. *)
Definition absent_or_empty {A} (field : option (list A)) : Prop :=
  field = None ∨ field = Some [].

(** Every entry of the id cache names a row of the arena that has the key
    of the entry as its id. *)
Definition cache_consistent (s : state) : Prop :=
  ∀ key row, _id_cache s !! key = Some row →
             (row < length (rows s))%nat ∧ row_id (rows s !!! row) = key ∧
             hashable key = true.

(** A row descriptor without id. *)
Definition row_without_id : row_desc :=
  {| rd_id := None; rd_same_as := None; rd_instructions := None |}.

(** A row that refers to the row [parent] for what it does not give. *)
Definition row_same_as (id_ parent : pyval) : row_desc :=
  {| rd_id := Some id_; rd_same_as := Some parent; rd_instructions := None |}.

(** The first row refers to the second one, which is defined after it. *)
Definition inheriting_pattern : pattern_desc :=
  pattern_of (PStr "inheriting") "inheriting"
    [row_same_as (PInt 1) (PInt 2); row_of (PInt 2) [knit; knit]] [].

Definition inheriting_parsed : KnittingPattern * state :=
  parsed_or_empty (_pattern inheriting_pattern initial_state).

(** A pattern with rows and a connection, and neither id nor name. *)
Definition anonymous_pattern : pattern_desc :=
  {| pd_id := None; pd_name := None;
     pd_rows := Some [row_of (PInt 1) [knit]; row_of (PInt 2) [knit]];
     pd_connections := Some [connection_of (PInt 1) (PInt 2)] |}.

Definition empty_pattern : pattern_desc := pattern_of (PStr "empty") "empty" [] [].

Definition connection_without_ends : connection_desc :=
  {| cd_from := None; cd_to := None; cd_meshes := None |}.

(** A pattern set of another type. *)
Definition crochet_set : set_desc :=
  {| sd_type := Some "crochet"%string; sd_version := Some "0.1"%string;
     sd_patterns := Some [first_pattern]; sd_comment := None |}.

Definition two_patterns : set_desc := set_of [first_pattern; second_pattern].

(** A connection that is accepted in the state [s]. *)
Definition connection_accepted (s : state) (connection : connection_desc) : Prop :=
  ∃ pairs, mesh_pairs connection s = Return pairs.

(** Three connections: the second one leads to a row that does not exist,
    the third one has no ends. *)
Definition connections_with_unknown_row : list connection_desc :=
  [connection_of (PInt 1) (PInt 2); connection_of (PInt 1) (PInt 9);
   connection_without_ends].

Definition short_set : set_desc := set_of [short_pattern].

(** The same-as reference of a row descriptor is resolved in the row
    created for it: the row inherits from no row when the descriptor has no
    reference, and else from exactly the row that the id cache holds under
    the referenced id. *)
Definition inheritance_resolved (s : state) (row : nat) (values : row_desc) : Prop :=
  match rd_same_as values with
  | None => row_inherited (rows s !!! row) = []
  | Some parent =>
      ∃ r, _id_cache s !! _to_id parent = Some r ∧
           row_inherited (rows s !!! row) = [r]
  end.

Definition inheriting_set : set_desc := set_of [inheriting_pattern].

(** * Properties *)

(** ** Results *)

Lemma bind_Return {A B} (m : result A) (f : A → result B) (b : B) :
  m ≫= f = Return b → ∃ a, m = Return a ∧ f a = Return b.
Proof. destruct m as [e|a]; simpl; [discriminate|]. eauto. Qed.

Lemma raised_or_Return {A} (m : result A) : raised m ∨ ∃ a, m = Return a.
Proof. destruct m as [e|a]; [left|right]; eexists; reflexivity. Qed.

Lemma raised_not_Return {A} (m : result A) : (∀ a, m ≠ Return a) → raised m.
Proof.
  intros H. destruct (raised_or_Return m) as [?|[a Ha]]; [done|].
  by destruct (H a).
Qed.

Lemma raised_bind {A B} (m : result A) (f : A → result B) :
  raised m → raised (m ≫= f).
Proof. intros [e ->]. by exists e. Qed.

Ltac inv_bind H :=
  let a := fresh "a" in
  let Ha := fresh "H" a in
  apply bind_Return in H; destruct H as (a & Ha & H).

(** ** Lists updated in place *)

Lemma fmap_insert_same {A B} (f : A → B) `{Inhabited A} (l : list A) (i : nat) (a : A) :
  f a = f (l !!! i) → f <$> <[i := a]> l = f <$> l.
Proof.
  intros Hf. destruct (decide (i < length l)%nat) as [Hi|Hi].
  - rewrite list_fmap_insert. apply list_insert_id.
    rewrite list_lookup_fmap.
    destruct (lookup_lt_is_Some_2 l i Hi) as [b Hb].
    rewrite Hb. simpl. f_equal. rewrite Hf.
    by rewrite (list_lookup_total_correct l i b).
  - rewrite list_insert_ge; [done|lia].
Qed.

Lemma rows_insert_same {B} (f : Row → B) (l : list Row) (i : nat) (a : Row) :
  f a = f (l !!! i) → f <$> <[i := a]> l = f <$> l.
Proof. apply fmap_insert_same. Qed.

Lemma total_lookup_fmap {A B} (f : A → B) `{Inhabited A} (l l' : list A) (i : nat) :
  f <$> l = f <$> l' → f (l !!! i) = f (l' !!! i).
Proof.
  intros Hl. rewrite !list_lookup_total_alt.
  assert (f <$> (l !! i) = f <$> (l' !! i)) as Hi.
  { by rewrite <- !list_lookup_fmap, Hl. }
  destruct (l !! i), (l' !! i); simpl in *; congruence.
Qed.

Lemma _row_Return values s row s' :
  _row values s = Return (row, s') →
  row = length (rows s) ∧
  is_Some (rd_id values) ∧
  hashable (row_id (row_created values)) = true ∧
  s' = mkState (<[row_id (row_created values) := row]> (_id_cache s))
               (_pattern_set s)
               (_inheritance_todos s ++ inheritance_delayed row values)
               (_instruction_todos s ++ [row])
               (rows s ++ [row_created values]) (meshes s) (links s).
Proof.
  unfold _row, id_cache_set, inheritance_delayed, row_created.
  destruct (rd_id values) as [v|]; simpl; [|discriminate].
  destruct (rd_same_as values) as [parent|]; simpl;
    destruct (hashable (_to_id v)); simpl; try discriminate;
    intros [= <- <-]; rewrite ?app_nil_r; eauto.
Qed.

Lemma _rows_Return spec s rs s' :
  _rows spec s = Return (rs, s') →
  rs = seq (length (rows s)) (length spec) ∧
  Forall (fun values => is_Some (rd_id values) ∧
                        hashable (row_id (row_created values)) = true) spec ∧
  s' = mkState (cache_rows (_id_cache s) (zip rs spec))
               (_pattern_set s)
               (_inheritance_todos s ++
                  concat (zip_with inheritance_delayed rs spec))
               (_instruction_todos s ++ rs)
               (rows s ++ (row_created <$> spec)) (meshes s) (links s).
Proof.
  revert s rs s'. induction spec as [|values spec IH]; intros s rs s' H; simpl in H.
  - injection H as <- <-. simpl. rewrite !app_nil_r. by destruct s.
  - inv_bind H. destruct a as [r s1]. inv_bind H. destruct a as [rs' s2].
    injection H as <- <-.
    apply _row_Return in Ha as (-> & Hid & Hh & ->).
    apply IH in Ha0 as (-> & Hall & ->). simpl.
    rewrite length_app. simpl. rewrite Nat.add_1_r.
    split; [done|]. split; [by constructor|].
    by rewrite <- !app_assoc.
Qed.

Lemma id_cache_get_Return key s r :
  id_cache_get key s = Return r → _id_cache s !! key = Some r.
Proof.
  unfold id_cache_get. destruct (hashable key); [|discriminate].
  destruct (_id_cache s !! key); [|discriminate]. congruence.
Qed.

Lemma id_cache_get_None key s :
  _id_cache s !! key = None → raised (id_cache_get key s).
Proof.
  intros H. unfold id_cache_get. rewrite H.
  destruct (hashable key); eexists; reflexivity.
Qed.

Lemma finish_inheritance_loop_Return todos s s' :
  finish_inheritance_loop todos s = Return s' →
  _inheritance_todos s = reverse todos →
  _inheritance_todos s' = [] ∧
  Forall (fun t => is_Some (_id_cache s !! t.2)) todos ∧
  _id_cache s' = _id_cache s ∧
  _pattern_set s' = _pattern_set s ∧
  _instruction_todos s' = _instruction_todos s ∧
  meshes s' = meshes s ∧
  links s' = links s ∧
  row_id <$> rows s' = row_id <$> rows s ∧
  row_values <$> rows s' = row_values <$> rows s ∧
  row_instructions <$> rows s' = row_instructions <$> rows s.
Proof.
  revert s. induction todos as [|[prototype parent_id] todos IH]; intros s H Hq;
    simpl in H.
  - injection H as <-. by repeat split.
  - inv_bind H. apply id_cache_get_Return in Ha. simpl in Ha.
    apply IH in H as (H1 & H2 & H3 & H4 & H5 & H6 & H7 & H8 & H9 & H10);
      [|done].
    simpl in *. rewrite H1, H3, H4, H5, H6, H7, H8, H9, H10.
    rewrite !rows_insert_same by done.
    repeat split; try done. constructor; [by eexists|done].
Qed.

Lemma _finish_inheritance_Return s s' :
  _finish_inheritance s = Return s' →
  _inheritance_todos s' = [] ∧
  Forall (fun t => is_Some (_id_cache s !! t.2)) (_inheritance_todos s) ∧
  _id_cache s' = _id_cache s ∧
  _pattern_set s' = _pattern_set s ∧
  _instruction_todos s' = _instruction_todos s ∧
  meshes s' = meshes s ∧
  links s' = links s ∧
  row_id <$> rows s' = row_id <$> rows s ∧
  row_values <$> rows s' = row_values <$> rows s ∧
  row_instructions <$> rows s' = row_instructions <$> rows s.
Proof.
  intros H. apply finish_inheritance_loop_Return in H; [|by rewrite reverse_involutive].
  destruct H as (H1 & H2 & H). split; [done|]. split; [|done].
  apply Forall_reverse in H2. by rewrite reverse_involutive in H2.
Qed.

Lemma append_instruction_extends row spec s :
  extends s (append_instruction row spec s) ∧
  _instruction_todos (append_instruction row spec s) = _instruction_todos s.
Proof.
  unfold extends, append_instruction. simpl.
  rewrite !rows_insert_same by done. done.
Qed.

Lemma extends_trans s1 s2 s3 : extends s1 s2 → extends s2 s3 → extends s1 s3.
Proof.
  unfold extends. intros (?&?&?&?&?&?&?) (?&?&?&?&?&?&?).
  repeat split; congruence.
Qed.

Lemma instructions_extend_extends row specs s :
  extends s (instructions_extend row specs s) ∧
  _instruction_todos (instructions_extend row specs s) = _instruction_todos s.
Proof.
  unfold instructions_extend. revert s.
  induction specs as [|spec specs IH]; intros s; simpl.
  - by repeat split.
  - destruct (IH (append_instruction row spec s)) as [H1 H2].
    destruct (append_instruction_extends row spec s) as [H3 H4].
    split; [by eapply extends_trans|congruence].
Qed.

Lemma finish_instructions_loop_Return todos s s' :
  finish_instructions_loop todos s = Return s' →
  _instruction_todos s = reverse todos →
  _instruction_todos s' = [] ∧ extends s s'.
Proof.
  revert s. induction todos as [|row todos IH]; intros s H Hq; simpl in H.
  - injection H as <-. by repeat split.
  - inv_bind H. simpl in H.
    set (s1 := set_instruction_todos (reverse todos) s) in *.
    destruct (instructions_extend_extends row (default [] a) s1) as [H1 H2].
    apply IH in H as [H3 H4]; [|by rewrite H2].
    split; [done|]. eapply extends_trans; [|done].
    eapply extends_trans; [|done]. by repeat split.
Qed.

Lemma _finish_instructions_Return s s' :
  _finish_instructions s = Return s' →
  _instruction_todos s' = [] ∧ extends s s'.
Proof.
  intros H. apply finish_instructions_loop_Return in H; [done|].
  by rewrite reverse_involutive.
Qed.

(** ** Links *)

Lemma symmetric_empty : symmetric ∅.
Proof. intros a b H. by rewrite lookup_empty in H. Qed.

Lemma symmetric_None (l : gmap nat nat) a b :
  symmetric l → l !! a = None → l !! b ≠ Some a.
Proof. intros Hl Ha Hb. apply Hl in Hb. congruence. Qed.

Lemma disconnect_lookup (l : gmap nat nat) m : disconnect m l !! m = None.
Proof.
  unfold disconnect. destruct (l !! m) as [other|] eqn:E; [|done].
  destruct (decide (other = m)) as [->|Hne].
  - by rewrite lookup_delete_eq.
  - by rewrite lookup_delete_ne, lookup_delete_eq.
Qed.

Lemma disconnect_lookup_Some (l : gmap nat nat) m a b :
  disconnect m l !! a = Some b → l !! a = Some b.
Proof.
  unfold disconnect. destruct (l !! m) as [other|] eqn:E; [|done].
  intros H. apply lookup_delete_Some in H as [_ H].
  by apply lookup_delete_Some in H as [_ H].
Qed.

Lemma disconnect_lookup_None (l : gmap nat nat) m a :
  l !! a = None → disconnect m l !! a = None.
Proof.
  intros H. destruct (disconnect m l !! a) eqn:E; [|done].
  apply disconnect_lookup_Some in E. congruence.
Qed.

Lemma disconnect_symmetric (l : gmap nat nat) m :
  symmetric l → symmetric (disconnect m l).
Proof.
  intros Hl a b H. pose proof (disconnect_lookup_Some _ _ _ _ H) as Hab.
  pose proof (Hl _ _ Hab) as Hba.
  unfold disconnect in *. destruct (l !! m) as [other|] eqn:E; [|done].
  apply lookup_delete_Some in H as [Ha1 H].
  apply lookup_delete_Some in H as [Ha2 _].
  rewrite lookup_delete_ne, lookup_delete_ne; [done| |].
  - intros ->. rewrite E in Hba. congruence.
  - intros ->. apply Hl in E. rewrite E in Hba. congruence.
Qed.

Lemma connect_to_symmetric (l : gmap nat nat) p c :
  symmetric l → symmetric (connect_to p c l).
Proof.
  intros Hl. unfold connect_to.
  set (l2 := disconnect p (disconnect c l)).
  assert (symmetric l2) as H2 by by do 2 apply disconnect_symmetric.
  assert (l2 !! p = None) as Hp by apply disconnect_lookup.
  assert (l2 !! c = None) as Hc
    by apply disconnect_lookup_None, disconnect_lookup.
  intros a b H.
  destruct (decide (a = c)) as [->|Hac].
  - rewrite lookup_insert_eq in H. injection H as <-.
    destruct (decide (p = c)) as [->|Hpc]; [by rewrite lookup_insert_eq|].
    by rewrite lookup_insert_ne, lookup_insert_eq.
  - rewrite lookup_insert_ne in H by done.
    destruct (decide (a = p)) as [->|Hap].
    + rewrite lookup_insert_eq in H. injection H as <-.
      by rewrite lookup_insert_eq.
    + rewrite lookup_insert_ne in H by done.
      pose proof (H2 _ _ H) as Hba.
      rewrite !lookup_insert_ne; [done| |]; intros ->; congruence.
Qed.

Lemma connect_pairs_symmetric pairs (l : gmap nat nat) :
  symmetric l → symmetric (connect_pairs pairs l).
Proof.
  unfold connect_pairs. revert l.
  induction pairs as [|pair pairs IH]; intros l Hl; simpl; [done|].
  by apply IH, connect_to_symmetric.
Qed.

Lemma symmetric_one_counterpart (l : gmap nat nat) a b c :
  symmetric l → l !! a = Some c → l !! b = Some c → a = b.
Proof. intros Hl Ha Hb. apply Hl in Ha, Hb. congruence. Qed.

Lemma mesh_pairs_Return connection s pairs :
  mesh_pairs connection s = Return pairs →
  ∃ from_id to_id,
    endpoint_id (cd_from connection) = Some from_id ∧
    endpoint_id (cd_to connection) = Some to_id ∧
    is_Some (_id_cache s !! from_id) ∧ is_Some (_id_cache s !! to_id).
Proof.
  unfold mesh_pairs, endpoint_id. intros H.
  destruct (cd_from connection) as [from|]; [|discriminate]. simpl in H.
  destruct (ed_id from) as [from_id|] eqn:Efrom; [|discriminate]. simpl in H.
  inv_bind H. apply id_cache_get_Return in Ha.
  destruct (cd_to connection) as [to|]; [|discriminate]. simpl in H.
  destruct (ed_id to) as [to_id|] eqn:Eto; [|discriminate]. simpl in H.
  inv_bind H. apply id_cache_get_Return in Ha0.
  exists (_to_id from_id), (_to_id to_id). simpl. rewrite Efrom, Eto.
  split; [done|]. split; [done|]. split; eexists; eassumption.
Qed.

Lemma _connect_rows_Return connections s s' :
  _connect_rows connections s = Return s' →
  Forall (fun c => ∃ from_id to_id,
            endpoint_id (cd_from c) = Some from_id ∧
            endpoint_id (cd_to c) = Some to_id ∧
            is_Some (_id_cache s !! from_id) ∧
            is_Some (_id_cache s !! to_id)) connections ∧
  (symmetric (links s) → symmetric (links s')) ∧
  s' = set_links (links s') s.
Proof.
  revert s. induction connections as [|c connections IH]; intros s H; simpl in H.
  - injection H as <-. split; [done|]. split; [done|]. by destruct s.
  - inv_bind H. apply IH in H as (H1 & H2 & H3). simpl in *.
    split; [|split].
    + constructor; [by eapply mesh_pairs_Return|done].
    + intros Hs. by apply H2, connect_pairs_symmetric.
    + rewrite H3 at 1. done.
Qed.

(** ** The id cache after the rows of a pattern *)

Lemma cache_rows_cons c p l :
  cache_rows c (p :: l) = cache_rows (<[row_id (row_created p.2) := p.1]> c) l.
Proof. reflexivity. Qed.

Lemma cache_rows_other c l k :
  k ∉ (fun p => row_id (row_created p.2)) <$> l → cache_rows c l !! k = c !! k.
Proof.
  revert c. induction l as [|p l IH]; intros c Hk; [done|].
  rewrite fmap_cons in Hk. apply not_elem_of_cons in Hk as [Hk1 Hk2].
  rewrite cache_rows_cons, IH by done. by rewrite lookup_insert_ne.
Qed.

Lemma cache_rows_new c l k :
  k ∈ (fun p => row_id (row_created p.2)) <$> l →
  ∃ p, p ∈ l ∧ row_id (row_created p.2) = k ∧ cache_rows c l !! k = Some p.1.
Proof.
  revert c. induction l as [|p l IH]; intros c Hk.
  - by apply elem_of_nil in Hk.
  - rewrite cache_rows_cons.
    destruct (decide (k ∈ (fun p => row_id (row_created p.2)) <$> l)) as [Hin|Hout].
    + destruct (IH (<[row_id (row_created p.2) := p.1]> c) Hin) as (q & Hq & Hk' & Hl).
      exists q. split; [by right|done].
    + rewrite fmap_cons in Hk. apply elem_of_cons in Hk as [Hk|Hk]; [|done].
      exists p. split; [by left|]. split; [done|].
      rewrite cache_rows_other by done. subst k. by rewrite lookup_insert_eq.
Qed.

Lemma elem_of_zip_seq {A} (n : nat) (l : list A) (p : nat * A) :
  p ∈ zip (seq n (length l)) l → ∃ i, p.1 = (n + i)%nat ∧ l !! i = Some p.2.
Proof.
  intros H. apply list_elem_of_lookup in H as [i Hi].
  apply lookup_zip_with_Some in Hi as (a & b & -> & Ha & Hb).
  apply lookup_seq in Ha as [-> _]. eauto.
Qed.

Lemma zip_seq_snd {A} (n : nat) (l : list A) : (zip (seq n (length l)) l).*2 = l.
Proof. apply snd_zip. by rewrite length_seq. Qed.

Lemma row_ids_created spec :
  Forall (fun values => is_Some (rd_id values) ∧
                        hashable (row_id (row_created values)) = true) spec →
  omap (fun values => _to_id <$> rd_id values) spec =
  (fun values => row_id (row_created values)) <$> spec.
Proof.
  induction 1 as [|values spec [[v Hv] _] _ IH]; [done|].
  rewrite fmap_cons, <- IH. unfold row_created at 1. simpl. by rewrite Hv.
Qed.

Lemma _pattern_Return base s p s' :
  _pattern base s = Return (p, s') →
  ∃ s1 s2 s3,
    _rows (rows_of_pattern base) s = Return (pattern_rows p, s1) ∧
    _finish_inheritance s1 = Return s2 ∧
    _finish_instructions s2 = Return s3 ∧
    _connect_rows (connections_of_pattern base) s3 = Return s'.
Proof.
  unfold _pattern. intros H. inv_bind H. destruct a as [rs s1].
  inv_bind H. inv_bind H. inv_bind H. inv_bind H. inv_bind H.
  injection H as <- <-. simpl. eauto 10.
Qed.

Lemma same_as_delayed (n : nat) spec k :
  k ∈ omap (fun values => _to_id <$> rd_same_as values) spec →
  ∃ r, (r, k) ∈ concat (zip_with inheritance_delayed (seq n (length spec)) spec).
Proof.
  revert n. induction spec as [|values spec IH]; intros n Hk; simpl in Hk.
  - by apply elem_of_nil in Hk.
  - simpl. unfold inheritance_delayed at 1.
    destruct (rd_same_as values) as [parent|]; simpl in *.
    + apply elem_of_cons in Hk as [->|Hk].
      * exists n. by left.
      * destruct (IH (S n) Hk) as [r Hr]. exists r. by right.
    + apply IH.  done.
Qed.

Lemma connection_ids_cached connections (c : gmap pyval nat) k :
  Forall (fun cd => ∃ from_id to_id,
            endpoint_id (cd_from cd) = Some from_id ∧
            endpoint_id (cd_to cd) = Some to_id ∧
            is_Some (c !! from_id) ∧ is_Some (c !! to_id)) connections →
  k ∈ omap (fun c => endpoint_id (cd_from c)) connections ++
      omap (fun c => endpoint_id (cd_to c)) connections →
  is_Some (c !! k).
Proof.
  intros Hall Hk. apply elem_of_app in Hk as [Hk|Hk];
    apply list_elem_of_omap in Hk as (cd & Hcd & Hk);
    rewrite list.Forall_forall in Hall;
    destruct (Hall cd Hcd) as (from_id & to_id & Hf & Ht & H1 & H2); congruence.
Qed.

(** What parsing a pattern does to the state. *)
Lemma _pattern_effect base s p s' :
  _pattern base s = Return (p, s') →
  pattern_rows p = seq (length (rows s)) (length (rows_of_pattern base)) ∧
  row_ids base = (fun values => row_id (row_created values)) <$> rows_of_pattern base ∧
  _id_cache s' = cache_rows (_id_cache s) (zip (pattern_rows p) (rows_of_pattern base)) ∧
  row_id <$> rows s' = row_id <$> (rows s ++ (row_created <$> rows_of_pattern base)) ∧
  (∀ k, k ∈ same_as_ids base ++ connection_ids base → is_Some (_id_cache s' !! k)) ∧
  (symmetric (links s) → symmetric (links s')) ∧
  _inheritance_todos s' = [] ∧ _instruction_todos s' = [].
Proof.
  intros H. apply _pattern_Return in H as (s1 & s2 & s3 & H1 & H2 & H3 & H4).
  apply _rows_Return in H1 as (Hrs & Hall & ->).
  apply _finish_inheritance_Return in H2
    as (Ht2 & Hin & Hc2 & _ & Hi2 & _ & Hl2 & Hr2 & _).
  apply _finish_instructions_Return in H3
    as (Ht3 & Hc3 & _ & Hi3 & Hl3 & Hr3 & _).
  apply _connect_rows_Return in H4 as (Hconn & Hsym & ->).
  simpl in *.
  assert (_id_cache s3 = cache_rows (_id_cache s)
            (zip (pattern_rows p) (rows_of_pattern base))) as Hc
    by congruence.
  split; [done|]. split; [by apply row_ids_created|]. split; [done|].
  split; [congruence|]. split; [|split; [|split; congruence]].
  - intros k Hk. apply elem_of_app in Hk as [Hk|Hk].
    + destruct (same_as_delayed (length (rows s)) _ _ Hk) as [r Hr].
      rewrite list.Forall_forall in Hin. rewrite <- Hrs in Hr.
      rewrite Hc. apply (Hin (r, k)). apply elem_of_app. by right.
    + by eapply connection_ids_cached.
  - intros Hs. apply Hsym. by rewrite Hl3, Hl2.
Qed.

Lemma cache_keys_zip_seq (n : nat) (spec : list row_desc) :
  (fun p : nat * row_desc => row_id (row_created p.2)) <$> zip (seq n (length spec)) spec =
  (fun values => row_id (row_created values)) <$> spec.
Proof.
  rewrite <- (zip_seq_snd n spec) at 3. by rewrite <- list_fmap_compose.
Qed.

(** The id cache after a pattern: the entries of the ids of this pattern's
    rows are new, every other entry is as before. *)
Lemma _pattern_id_cache base s p s' k :
  _pattern base s = Return (p, s') →
  (k ∉ row_ids base → _id_cache s' !! k = _id_cache s !! k) ∧
  (k ∈ row_ids base →
   ∃ i values, rows_of_pattern base !! i = Some values ∧
               _to_id <$> rd_id values = Some k ∧
               _id_cache s' !! k = Some (length (rows s) + i)%nat).
Proof.
  intros H. pose proof H as H0. apply _pattern_Return in H0 as (s1 & s2 & s3 & H0 & _).
  apply _rows_Return in H0 as (_ & Hall & _).
  apply _pattern_effect in H as (Hrs & Hids & Hc & _).
  rewrite Hc, Hrs, Hids, <- (cache_keys_zip_seq (length (rows s))).
  split; [apply cache_rows_other|]. intros Hk.
  destruct (cache_rows_new (_id_cache s) _ _ Hk) as ([r values] & Hp & Hv & Hl).
  apply elem_of_zip_seq in Hp as (i & Hr & Hi). simpl in *. subst r.
  exists i, values. split; [done|]. split; [|done].
  rewrite list.Forall_forall in Hall.
  destruct (Hall values) as [[v Hv'] _]; [by eapply list_elem_of_lookup_2|].
  rewrite <- Hv. unfold row_created. simpl. by rewrite Hv'.
Qed.

Lemma _pattern_id_cache_dom base s p s' k :
  _pattern base s = Return (p, s') →
  is_Some (_id_cache s' !! k) → is_Some (_id_cache s !! k) ∨ k ∈ row_ids base.
Proof.
  intros H Hk. destruct (_pattern_id_cache base s p s' k H) as [H1 _].
  destruct (decide (k ∈ row_ids base)) as [Hin|Hout]; [by right|left].
  by rewrite <- H1.
Qed.

Lemma fill_patterns_references pre base post s collection s' k :
  fill_patterns (pre ++ base :: post) s = Return (collection, s') →
  k ∈ same_as_ids base ++ connection_ids base →
  is_Some (_id_cache s !! k) ∨ k ∈ concat (row_ids <$> pre ++ [base]).
Proof.
  revert s collection. induction pre as [|first pre IH]; intros s collection H Hk;
    simpl in H; inv_bind H; destruct a as [p s1]; inv_bind H; destruct a as [c s2];
    injection H as <- <-.
  - pose proof (_pattern_effect _ _ _ _ Ha) as (_ & _ & _ & _ & Hrefs & _).
    destruct (_pattern_id_cache_dom _ _ _ _ k Ha (Hrefs k Hk)) as [?|Hin]; [by left|].
    right. simpl. by rewrite app_nil_r.
  - destruct (IH _ _ Ha0 Hk) as [Hc|Hin].
    + destruct (_pattern_id_cache_dom _ _ _ _ k Ha Hc) as [?|Hin]; [by left|].
      right. simpl. apply elem_of_app. by left.
    + right. simpl. apply elem_of_app. by right.
Qed.

Lemma fill_patterns_symmetric patterns s collection s' :
  fill_patterns patterns s = Return (collection, s') →
  symmetric (links s) → symmetric (links s').
Proof.
  revert s collection. induction patterns as [|base patterns IH]; intros s collection H Hs;
    simpl in H.
  - by injection H as <- <-.
  - inv_bind H; destruct a as [p s1]; inv_bind H; destruct a as [c s2].
    injection H as <- <-.
    apply _pattern_effect in Ha as (_ & _ & _ & _ & _ & Hsym & _).
    eapply IH; eauto.
Qed.

Lemma knitting_pattern_set_Return values s pattern_set s' :
  knitting_pattern_set values s = Return (pattern_set, s') →
  ∃ collection s1,
    fill_patterns (patterns_of_set values) (new_arena (_start s)) = Return (collection, s1) ∧
    _create_pattern_set collection values s1 = Return s' ∧
    pattern_set = _pattern_set s'.
Proof.
  unfold knitting_pattern_set, _fill_pattern_collection. intros H.
  inv_bind H. destruct a as [collection s1]. inv_bind H. injection H as <- <-.
  eauto.
Qed.

Lemma _create_pattern_set_Return collection values s s' :
  _create_pattern_set collection values s = Return s' →
  ∃ pattern_set, s' = set_pattern_set (Some pattern_set) s ∧
                 set_patterns pattern_set = collection ∧
                 set_type pattern_set = KNITTING_PATTERN_TYPE.
Proof.
  unfold _create_pattern_set, _get_type. intros H. inv_bind H. inv_bind H.
  injection H as <-. eexists. split; [done|]. split; [done|]. simpl.
  destruct (sd_type values); [|discriminate]. case_bool_decide; [|discriminate].
  congruence.
Qed.

(** Claim C3. A connection descriptor, or a same-as reference, of a pattern
    that names a row id which is the id of no row of that pattern or of an
    earlier pattern of the set (so the id is absent from the id cache when
    it is looked up) makes [knitting_pattern_set] raise: the whole parse is
    aborted and no pattern set is returned. The exception of the lookup is
    a [KeyError]. *)
Theorem unknown_row_id_raises values s pre base post k :
  patterns_of_set values = pre ++ base :: post →
  k ∈ same_as_ids base ++ connection_ids base →
  k ∉ concat (row_ids <$> pre ++ [base]) →
  raised (knitting_pattern_set values s).
Proof.
  intros Hp Hk Hnew. apply raised_not_Return. intros [pattern_set s'] H.
  apply knitting_pattern_set_Return in H as (collection & s1 & H & _).
  rewrite Hp in H.
  destruct (fill_patterns_references _ _ _ _ _ _ k H Hk) as [[r Hr]|Hin]; [|done].
  simpl in Hr. by rewrite lookup_empty in Hr.
Qed.

(** Claim C4. After [knitting_pattern_set] has returned, the links of the
    meshes are mutual, [m.link.link is m] for every linked mesh [m], and no
    mesh is the counterpart of two meshes. *)
Theorem links_are_mutual values s pattern_set s' :
  knitting_pattern_set values s = Return (pattern_set, s') →
  (∀ m other, links s' !! m = Some other → links s' !! other = Some m) ∧
  (∀ m1 m2 other,
     links s' !! m1 = Some other → links s' !! m2 = Some other → m1 = m2).
Proof.
  intros H. apply knitting_pattern_set_Return in H as (collection & s1 & H & Hc & _).
  apply _create_pattern_set_Return in Hc as (ps & -> & _).
  apply fill_patterns_symmetric in H; [|apply symmetric_empty].
  split; [exact H|]. intros m1 m2 other. by apply symmetric_one_counterpart.
Qed.

(** ** One connection *)

Lemma length_slice {A} (l : list A) (start stop : Z) :
  0 ≤ start ≤ stop →
  Z.of_nat (length (slice l start stop)) =
  Z.min stop (Z.of_nat (length l)) - Z.min start (Z.of_nat (length l)).
Proof. intros H. unfold slice. rewrite length_take, length_drop. lia. Qed.

Lemma lookup_slice {A} (l : list A) (start stop : Z) (i : nat) :
  0 ≤ start → (i < Z.to_nat (stop - start))%nat →
  slice l start stop !! i = l !! (Z.to_nat start + i)%nat.
Proof.
  intros H Hi. unfold slice. rewrite lookup_take_lt by done. by rewrite lookup_drop.
Qed.

Lemma connect_to_lookup (l : gmap nat nat) p c :
  p ≠ c → connect_to p c l !! p = Some c ∧ connect_to p c l !! c = Some p.
Proof.
  intros H. unfold connect_to.
  by rewrite lookup_insert_ne, !lookup_insert_eq.
Qed.

Lemma connect_to_other (l : gmap nat nat) p c a b :
  symmetric l → l !! a = Some b → l !! b = Some a →
  a ≠ p → a ≠ c → b ≠ p → b ≠ c →
  connect_to p c l !! a = Some b.
Proof.
  intros Hl Hab Hba ? ? ? ?. unfold connect_to.
  rewrite !lookup_insert_ne by done.
  assert (∀ m l', symmetric l' → m ≠ a → m ≠ b → l' !! a = Some b →
                  disconnect m l' !! a = Some b) as Hd.
  { intros m l' Hl' ? ? Ha. unfold disconnect.
    destruct (l' !! m) as [other|] eqn:E; [|done].
    rewrite !lookup_delete_ne; [done|done|].
    intros ->. apply Hl' in E. congruence. }
  apply Hd; [by apply disconnect_symmetric|done|done|].
  by apply Hd.
Qed.

Lemma connect_pairs_other pairs (l : gmap nat nat) a b :
  symmetric l → l !! a = Some b → l !! b = Some a →
  a ∉ pairs.*1 ++ pairs.*2 → b ∉ pairs.*1 ++ pairs.*2 →
  connect_pairs pairs l !! a = Some b ∧ connect_pairs pairs l !! b = Some a.
Proof.
  unfold connect_pairs. revert l.
  induction pairs as [|[p c] pairs IH]; intros l Hl Hab Hba Ha Hb; simpl; [done|].
  simpl in Ha, Hb.
  apply not_elem_of_cons in Ha as [? Ha], Hb as [? Hb].
  rewrite not_elem_of_app in Ha, Hb. destruct Ha as [Ha1 Ha2], Hb as [Hb1 Hb2].
  apply not_elem_of_cons in Ha2 as [? Ha2], Hb2 as [? Hb2].
  apply IH.
  - by apply connect_to_symmetric.
  - by apply connect_to_other.
  - by apply connect_to_other.
  - rewrite not_elem_of_app. done.
  - rewrite not_elem_of_app. done.
Qed.

Lemma connect_pairs_lookup pairs (l : gmap nat nat) p c :
  symmetric l → NoDup (pairs.*1 ++ pairs.*2) → (p, c) ∈ pairs →
  connect_pairs pairs l !! p = Some c ∧ connect_pairs pairs l !! c = Some p.
Proof.
  revert l. induction pairs as [|[p0 c0] pairs IH]; intros l Hl Hnd Hin.
  - by apply elem_of_nil in Hin.
  - simpl in Hnd. apply NoDup_cons in Hnd as [Hp0 Hnd].
    assert (NoDup (pairs.*1 ++ pairs.*2) ∧ (c0 ∉ pairs.*1 ++ pairs.*2) ∧ p0 ≠ c0)
      as (Hnd' & Hc0 & Hne).
    { rewrite NoDup_app in Hnd. destruct Hnd as (H1 & H2 & H3).
      apply NoDup_cons in H3 as [H3 H4].
      split; [|split].
      - apply NoDup_app. split; [done|]. split; [|done].
        intros x Hx Hx'. apply (H2 x Hx). by right.
      - rewrite not_elem_of_app. split; [|done].
        intros Hx. apply (H2 c0 Hx). by left.
      - intros ->. apply Hp0. apply elem_of_app. right. by left. }
    assert (p0 ∉ pairs.*1 ++ pairs.*2) as Hp0'.
    { intros Hx. apply Hp0. apply elem_of_app in Hx as [Hx|Hx];
        apply elem_of_app; [by left|right; by right]. }
    apply elem_of_cons in Hin as [[= -> ->]|Hin].
    + destruct (connect_to_lookup l p0 c0 Hne) as [H1 H2].
      change (connect_pairs ((p0, c0) :: pairs) l)
        with (connect_pairs pairs (connect_to p0 c0 l)).
      apply connect_pairs_other; try done. by apply connect_to_symmetric.
    + change (connect_pairs ((p0, c0) :: pairs) l)
        with (connect_pairs pairs (connect_to p0 c0 l)).
      apply IH; [by apply connect_to_symmetric|done|done].
Qed.

Lemma slices_NoDup {A} (P C : list A) (a b c d : Z) :
  NoDup (P ++ C) →
  length (slice P a b) = length (slice C c d) →
  NoDup ((zip (slice P a b) (slice C c d)).*1 ++ (zip (slice P a b) (slice C c d)).*2).
Proof.
  intros Hnd Hlen. rewrite fst_zip, snd_zip by lia.
  eapply sublist_NoDup; [exact Hnd|].
  apply sublist_app; unfold slice;
    (etrans; [apply sublist_take|apply sublist_drop]).
Qed.

Section connection.
Variables (connection : connection_desc) (s : state).
Variables (from to : endpoint_desc) (from_id to_id : pyval) (fr tr : nat).
Hypothesis Hfrom : cd_from connection = Some from.
Hypothesis Hfrom_id : ed_id from = Some from_id.
Hypothesis Hfrom_row : id_cache_get (_to_id from_id) s = Return fr.
Hypothesis Hto : cd_to connection = Some to.
Hypothesis Hto_id : ed_id to = Some to_id.
Hypothesis Hto_row : id_cache_get (_to_id to_id) s = Return tr.

Let from_row := rows s !!! fr.
Let to_row := rows s !!! tr.
Let from_start := default DEFAULT_START (ed_start from).
Let to_start := default DEFAULT_START (ed_start to).
Let count :=
  default (Z.min (number_of_produced_meshes from_row - from_start)
                 (number_of_consumed_meshes to_row - to_start))
          (cd_meshes connection).

Lemma mesh_pairs_resolved :
  mesh_pairs connection s =
  (_ ← assert (bool_decide (0 ≤ from_start ≤ from_start + count));
   _ ← assert (bool_decide (0 ≤ to_start ≤ to_start + count));
   _ ← assert (bool_decide
                 (length (slice (row_produced_meshes from_row)
                                from_start (from_start + count)) =
                  length (slice (row_consumed_meshes to_row)
                                to_start (to_start + count))));
   Return (zip (slice (row_produced_meshes from_row)
                      from_start (from_start + count))
               (slice (row_consumed_meshes to_row)
                      to_start (to_start + count)))).
Proof.
  unfold mesh_pairs. rewrite Hfrom. simpl. rewrite Hfrom_id. simpl.
  rewrite Hfrom_row. simpl. rewrite Hto. simpl. rewrite Hto_id. simpl.
  rewrite Hto_row. reflexivity.
Qed.

(** Claim C2. A connection whose indices are in range is resolved to exactly
    [count] pairs, where [count] is the [meshes] of the descriptor when it
    is given and else the minimum of the meshes available on both sides,
    the start indices defaulting to 0; the [i]-th pair is the produced mesh
    [from_start + i] of the source row and the consumed mesh [to_start + i]
    of the target row, and after the connection these two meshes are
    linked to each other. *)
Theorem in_range_connection_links_pairs :
  0 ≤ from_start → 0 ≤ to_start → 0 ≤ count →
  from_start + count ≤ number_of_produced_meshes from_row →
  to_start + count ≤ number_of_consumed_meshes to_row →
  ∃ pairs,
    mesh_pairs connection s = Return pairs ∧
    length pairs = Z.to_nat count ∧
    (∀ i, (i < Z.to_nat count)%nat →
       ∃ produced_mesh consumed_mesh,
         row_produced_meshes from_row !! (Z.to_nat from_start + i)%nat
           = Some produced_mesh ∧
         row_consumed_meshes to_row !! (Z.to_nat to_start + i)%nat
           = Some consumed_mesh ∧
         pairs !! i = Some (produced_mesh, consumed_mesh) ∧
         (symmetric (links s) →
          NoDup (row_produced_meshes from_row ++ row_consumed_meshes to_row) →
          ∃ s', _connect_rows [connection] s = Return s' ∧
                links s' !! produced_mesh = Some consumed_mesh ∧
                links s' !! consumed_mesh = Some produced_mesh)).
Proof.
  intros Hfs Hts Hcount HP HC. rewrite mesh_pairs_resolved.
  fold from_row to_row from_start to_start count.
  unfold number_of_produced_meshes, number_of_consumed_meshes in HP, HC.
  set (P := row_produced_meshes from_row) in *.
  set (C := row_consumed_meshes to_row) in *.
  assert (Z.of_nat (length (slice P from_start (from_start + count))) = count)
    as HlenP by (rewrite length_slice; lia).
  assert (Z.of_nat (length (slice C to_start (to_start + count))) = count)
    as HlenC by (rewrite length_slice; lia).
  rewrite !bool_decide_eq_true_2 by lia. simpl.
  eexists. split; [reflexivity|]. split.
  { rewrite length_zip_with. lia. }
  intros i Hi.
  destruct (lookup_lt_is_Some_2 P (Z.to_nat from_start + i)) as [p Hp]; [lia|].
  destruct (lookup_lt_is_Some_2 C (Z.to_nat to_start + i)) as [c Hc]; [lia|].
  exists p, c. split; [done|]. split; [done|].
  assert (zip (slice P from_start (from_start + count))
              (slice C to_start (to_start + count)) !! i = Some (p, c)) as Hi'.
  { apply lookup_zip_with_Some. exists p, c. split; [done|].
    rewrite !lookup_slice by lia. done. }
  split; [done|]. intros Hsym Hnd.
  unfold _connect_rows. rewrite mesh_pairs_resolved.
  fold from_row to_row from_start to_start count P C.
  rewrite !bool_decide_eq_true_2 by lia. simpl.
  eexists. split; [reflexivity|]. simpl.
  apply connect_pairs_lookup; [done| |by eapply list_elem_of_lookup_2].
  apply slices_NoDup; [done|lia].
Qed.

End connection.

(** ** The phases of a pattern *)

Lemma _pattern_phases base s :
  _pattern base s = '(rows, s) ← rows_finished base s; connect_and_build base rows s.
Proof.
  unfold _pattern, rows_finished, connect_and_build.
  fold (rows_of_pattern base). fold (connections_of_pattern base).
  destruct (_rows (rows_of_pattern base) s) as [e|[rs s1]]; [done|]. simpl.
  destruct (_finish_inheritance s1) as [e|s2]; [done|]. simpl.
  destruct (_finish_instructions s2) as [e|s3]; done.
Qed.

Lemma rows_finished_Return base s rs s3 :
  rows_finished base s = Return (rs, s3) →
  _inheritance_todos s3 = [] ∧ _instruction_todos s3 = [].
Proof.
  unfold rows_finished. intros H. inv_bind H. destruct a as [rs' s1].
  inv_bind H. inv_bind H. injection H as <- <-.
  apply _finish_inheritance_Return in Ha0 as (H1 & _).
  apply _finish_instructions_Return in Ha1 as (H2 & _ & _ & H3 & _).
  split; congruence.
Qed.

Lemma row_get_instructions_ext depth (rs1 rs2 : list Row) row :
  row_values <$> rs1 = row_values <$> rs2 →
  row_inherited <$> rs1 = row_inherited <$> rs2 →
  row_get_instructions depth rs1 row = row_get_instructions depth rs2 row.
Proof.
  intros Hv Hi. revert row. induction depth as [|depth IH]; intros row; [done|].
  simpl. rewrite (total_lookup_fmap row_values rs1 rs2 row Hv).
  destruct (rd_instructions (row_values (rs2 !!! row))); [done|].
  rewrite (total_lookup_fmap row_inherited rs1 rs2 row Hi).
  induction (row_inherited (rs2 !!! row)) as [|base bases IHb]; [done|].
  rewrite IH. destruct (row_get_instructions depth rs2 base) as [e|[l|]]; simpl; done.
Qed.

Lemma append_instruction_rows row spec s :
  (row < length (rows s))%nat →
  length (rows (append_instruction row spec s)) = length (rows s) ∧
  (∀ r, r ≠ row → rows (append_instruction row spec s) !!! r = rows s !!! r) ∧
  ∃ i, instantiates i spec ∧
       row_instructions (rows (append_instruction row spec s) !!! row) =
       row_instructions (rows s !!! row) ++ [i].
Proof.
  intros Hrow. unfold append_instruction. simpl.
  rewrite length_insert. split; [done|]. split.
  - intros r Hr. by rewrite list_lookup_total_insert_ne.
  - eexists. rewrite list_lookup_total_insert_eq by done. simpl.
    split; [|reflexivity]. split; simpl; by rewrite length_seq.
Qed.

Lemma instructions_extend_rows row specs s :
  (row < length (rows s))%nat →
  length (rows (instructions_extend row specs s)) = length (rows s) ∧
  (∀ r, r ≠ row → rows (instructions_extend row specs s) !!! r = rows s !!! r) ∧
  ∃ instrs, Forall2 instantiates instrs specs ∧
        row_instructions (rows (instructions_extend row specs s) !!! row) =
        row_instructions (rows s !!! row) ++ instrs.
Proof.
  unfold instructions_extend. revert s.
  induction specs as [|spec specs IH]; intros s Hrow; simpl.
  - split; [done|]. split; [done|]. exists []. by rewrite app_nil_r.
  - destruct (append_instruction_rows row spec s Hrow) as (H1 & H2 & i & H3 & H4).
    destruct (IH (append_instruction row spec s)) as (H5 & H6 & instrs & H7 & H8); [lia|].
    split; [lia|]. split.
    + intros r Hr. by rewrite H6, H2.
    + exists (i :: instrs). split; [by constructor|].
      rewrite H8, H4. by rewrite <- app_assoc.
Qed.

Lemma finish_instructions_loop_populated todos s s' :
  finish_instructions_loop todos s = Return s' →
  NoDup todos → (∀ r, r ∈ todos → (r < length (rows s))%nat) →
  length (rows s') = length (rows s) ∧
  (∀ r, r ∉ todos → rows s' !!! r = rows s !!! r) ∧
  (∀ r, r ∈ todos →
     ∃ found instrs,
       row_get_instructions (S (length (rows s))) (rows s) r = Return found ∧
       Forall2 instantiates instrs (default [] found) ∧
       row_instructions (rows s' !!! r) = row_instructions (rows s !!! r) ++ instrs).
Proof.
  revert s. induction todos as [|row todos IH]; intros s H Hnd Hlt.
  - injection H as <-. split; [done|]. split; [done|].
    intros r Hr. by apply elem_of_nil in Hr.
  - cbn [finish_instructions_loop] in H. inv_bind H.
    set (s0 := set_instruction_todos (reverse todos) s) in *.
    change (rows s0) with (rows s) in *.
    apply NoDup_cons in Hnd as [Hrow Hnd].
    assert (row < length (rows s))%nat as Hrow' by (apply Hlt; by left).
    destruct (instructions_extend_rows row (default [] a) s0 Hrow')
      as (H1 & H2 & instrs & H3 & H4).
    destruct (instructions_extend_extends row (default [] a) s0)
      as [(_ & _ & _ & _ & _ & Hv & Hi) _].
    change (rows s0) with (rows s) in *.
    set (s1 := instructions_extend row (default [] a) s0) in *.
    apply IH in H as (H5 & H6 & H7); [|done|].
    2:{ intros r Hr. rewrite H1. apply Hlt. by right. }
    split; [lia|]. split.
    + intros r Hr. apply not_elem_of_cons in Hr as [Hr1 Hr2].
      by rewrite H6, H2.
    + intros r Hr. apply elem_of_cons in Hr as [->|Hr].
      * exists a, instrs. split; [done|]. split; [done|]. by rewrite H6.
      * destruct (H7 r Hr) as (found & instrs' & H8 & H9 & H10).
        exists found, instrs'. split; [|split; [done|]].
        -- rewrite <- H8, H1. symmetry. by apply row_get_instructions_ext.
        -- rewrite H10, H2; [done|]. intros ->. done.
Qed.

Lemma rows_finished_populated base s rs s3 :
  rows_finished base s = Return (rs, s3) →
  _instruction_todos s = [] →
  ∀ r, r ∈ rs → populated s3 r.
Proof.
  unfold rows_finished. intros H Hq r Hr. inv_bind H. destruct a as [rs' s1].
  inv_bind H. inv_bind H. injection H as <- <-.
  apply _rows_Return in Ha as (-> & _ & ->).
  apply _finish_inheritance_Return in Ha0
    as (_ & _ & _ & _ & Hi2 & _ & _ & Hid & _ & Hr2).
  simpl in *. rewrite Hq in Hi2. simpl in Hi2.
  unfold _finish_instructions in Ha1. rewrite Hi2 in Ha1.
  assert (length (rows a) = (length (rows s) + length (rows_of_pattern base))%nat) as Hlen.
  { apply (f_equal length) in Hid. rewrite !length_fmap, length_app, length_fmap in Hid.
    done. }
  pose proof (finish_instructions_loop_Return _ _ _ Ha1) as [_ Hext];
    [by rewrite reverse_involutive|].
  destruct Hext as (_ & _ & _ & _ & _ & Hv & Hi).
  apply finish_instructions_loop_populated in Ha1 as (H1 & _ & H3).
  2:{ rewrite reverse_Permutation. apply NoDup_seq. }
  2:{ intros r' Hr'. rewrite elem_of_reverse, elem_of_seq in Hr'. lia. }
  destruct (H3 r) as (found & instrs & H4 & H5 & H6); [by rewrite elem_of_reverse|].
  exists found. rewrite H1. split.
  { rewrite <- H4. by apply row_get_instructions_ext. }
  rewrite H6.
  rewrite (total_lookup_fmap row_instructions (rows a)
             (rows s ++ (row_created <$> rows_of_pattern base)) r Hr2).
  apply elem_of_seq in Hr as [Hr1 Hr2'].
  destruct (lookup_lt_is_Some_2 (rows_of_pattern base) (r - length (rows s)))
    as [values Hvalues]; [lia|].
  rewrite (list_lookup_total_correct _ r (row_created values)); [done|].
  rewrite lookup_app_r by done. by rewrite list_lookup_fmap, Hvalues.
Qed.

Lemma _pattern_hashable base s p s' k :
  _pattern base s = Return (p, s') → k ∈ row_ids base → hashable k = true.
Proof.
  intros H Hk. pose proof H as H0.
  apply _pattern_Return in H0 as (s1 & s2 & s3 & H0 & _).
  apply _rows_Return in H0 as (_ & Hall & _).
  apply _pattern_effect in H as (_ & Hids & _).
  rewrite Hids in Hk. apply list_elem_of_fmap in Hk as (values & -> & Hv).
  rewrite list.Forall_forall in Hall. by destruct (Hall values Hv).
Qed.

Lemma _pattern_rows_length base s p s' :
  _pattern base s = Return (p, s') →
  length (rows s') = (length (rows s) + length (rows_of_pattern base))%nat.
Proof.
  intros H. apply _pattern_effect in H as (_ & _ & _ & Hid & _).
  apply (f_equal length) in Hid.
  by rewrite !length_fmap, length_app, length_fmap in Hid.
Qed.



(** Claim C8. [knitting_pattern_set] begins with [_start], which replaces
    the id cache and both queues by empty ones: the result does not depend
    on the state the parser was left in. *)
Theorem knitting_pattern_set_starts_afresh values s1 s2 :
  knitting_pattern_set values s1 = knitting_pattern_set values s2 ∧
  _id_cache (_start s1) = ∅ ∧
  _inheritance_todos (_start s1) = [] ∧
  _instruction_todos (_start s1) = [].
Proof. done. Qed.


(** Claim C5. For four rows of four stitches, each row connected to the
    next, the grid layout gives the coordinates
    [[(x, y) for y in range(4) for x in range(4)]] in the order of the walk,
    the size (1, 1) for every instruction, the four rows in their order, no
    connection, and the bounding box (0, 0, 4, 4). *)
Theorem block4x4_layout :
  match parsed_pattern block4x4 with
  | Some (s, pattern) =>
      walk_instructions s pattern (fun p => (x p, y p)) = coordinates_4x4 ∧
      walk_instructions s pattern (fun p => (width p, height p)) = replicate 16 (1, 1) ∧
      walk_instructions s pattern (fun p => (row_id (rows s !!! point_row p), point_index p)) =
        (id_ ← [PInt 1; PInt 2; PInt 3; PInt 4]; index ← seq 0 4; [(id_, index)]) ∧
      walk_rows s pattern (fun g => row_id (rows s !!! grid_row g)) =
        [PInt 1; PInt 2; PInt 3; PInt 4] ∧
      walk_connections s pattern (fun c => c) = [] ∧
      bounding_box s pattern = Some (0, 0, 4, 4)
  | None => False
  end.
Proof. vm_compute. repeat split. Qed.

Lemma fill_patterns_app pre rest s collection s' :
  fill_patterns (pre ++ rest) s = Return (collection, s') →
  ∃ c1 s1 c2, fill_patterns pre s = Return (c1, s1) ∧
              fill_patterns rest s1 = Return (c2, s') ∧ collection = c1 ++ c2.
Proof.
  revert s collection. induction pre as [|base pre IH]; intros s collection H.
  - exists [], s, collection. done.
  - simpl in H. inv_bind H. destruct a as [p s0]. inv_bind H. destruct a as [c s2].
    injection H as <- <-.
    destruct (IH _ _ Ha0) as (c1 & s1 & c2 & H1 & H2 & ->).
    exists (p :: c1), s1, c2. simpl. rewrite Ha. simpl. rewrite H1. done.
Qed.

Lemma fill_patterns_queues patterns s collection s' :
  fill_patterns patterns s = Return (collection, s') →
  _inheritance_todos s = [] → _instruction_todos s = [] →
  _inheritance_todos s' = [] ∧ _instruction_todos s' = [].
Proof.
  revert s collection. induction patterns as [|base patterns IH]; intros s collection H H1 H2.
  - by injection H as <- <-.
  - simpl in H. inv_bind H. destruct a as [p s0]. inv_bind H. destruct a as [c s2].
    injection H as <- <-.
    apply _pattern_effect in Ha as (_ & _ & _ & _ & _ & _ & H3 & H4).
    by eapply IH.
Qed.

(** Claim C1 fails as it is stated: for two rows of four stitches and a
    connection of ten meshes both stop indices are out of range, and no
    exception is raised. *)
Lemma overrun_connection_is_not_fatal :
  id_cache_get (_to_id (PInt 1)) (state_at_connections overrun_pattern) = Return 0%nat ∧
  id_cache_get (_to_id (PInt 2)) (state_at_connections overrun_pattern) = Return 1%nat ∧
  number_of_produced_meshes (rows (state_at_connections overrun_pattern) !!! 0%nat)
    < DEFAULT_START + 10 ∧
  number_of_consumed_meshes (rows (state_at_connections overrun_pattern) !!! 1%nat)
    < DEFAULT_START + 10 ∧
  ¬ raised (_connect_rows [overrun_connection] (state_at_connections overrun_pattern)) ∧
  ¬ raised (knitting_pattern_set overrun_set initial_state).
Proof.
  split; [by vm_compute|]. split; [by vm_compute|].
  split; [by vm_compute|]. split; [by vm_compute|].
  split; intros [e H]; vm_compute in H; discriminate.
Qed.

Lemma block4x4_first_connection :
  ∃ pairs,
    mesh_pairs (connection_of (PInt 1) (PInt 2)) (state_at_connections block4x4_pattern)
    = Return pairs ∧ length pairs = 4%nat.
Proof.
  edestruct (in_range_connection_links_pairs (connection_of (PInt 1) (PInt 2))
               (state_at_connections block4x4_pattern)) as (pairs & Hp & Hl & _).
  - reflexivity.
  - reflexivity.
  - by vm_compute.
  - reflexivity.
  - reflexivity.
  - by vm_compute.
  - by vm_compute.
  - by vm_compute.
  - by vm_compute.
  - by vm_compute.
  - by vm_compute.
  - exists pairs. split; [exact Hp|]. rewrite Hl. by vm_compute.
Defined.

Lemma unknown_set_raises : raised (knitting_pattern_set unknown_set initial_state).
Proof.
  apply (unknown_row_id_raises unknown_set initial_state [] unknown_pattern [] (PInt 9)).
  - reflexivity.
  - apply (bool_decide_unpack _). by vm_compute.
  - apply (bool_decide_unpack _). by vm_compute.
Defined.

Lemma block4x4_links_are_mutual :
  match knitting_pattern_set block4x4 initial_state with
  | Return (_, s') => ∀ m other, links s' !! m = Some other → links s' !! other = Some m
  | Raise _ => False
  end.
Proof.
  destruct (knitting_pattern_set block4x4 initial_state) as [e|[pattern_set s']] eqn:E.
  - vm_compute in E. discriminate.
  - exact (proj1 (links_are_mutual _ _ _ _ E)).
Defined.





(** ** Further properties of the parser *)

(** Property X1. [_to_id] applied twice is [_to_id] applied once and its
    result is never a list; the result can be the key of a dict exactly when
    the id can, or is a list of values that can: [_to_id] does not look
    inside a list, so a list that holds a list stays unusable as a key. *)
Theorem _to_id_idempotent id_ :
  _to_id (_to_id id_) = _to_id id_ ∧ (∀ l, _to_id id_ ≠ PList l) ∧
  (hashable (_to_id id_) = true ↔
   hashable id_ = true ∨ ∃ l, id_ = PList l ∧ Forall (fun v => hashable v = true) l).
Proof.
  split; [by destruct id_|]. split; [by destruct id_|].
  destruct id_ as [z|t|l|l]; simpl.
  - split; [by left|done].
  - split; [by left|done].
  - assert (forallb hashable l = true ↔ Forall (fun v => hashable v = true) l) as Hl.
    { induction l as [|v l IH]; simpl; [done|].
      rewrite andb_true_iff, Forall_cons. tauto. }
    rewrite Hl. split.
    + intros H. right. by exists l.
    + by intros [H|(l' & [= <-] & H)].
  - split; [by left|]. by intros [H|(l' & H & _)].
Qed.

Lemma _row_accepted values s id_ :
  rd_id values = Some id_ → hashable (_to_id id_) = true →
  _row values s =
  Return (length (rows s),
          mkState (<[_to_id id_ := length (rows s)]> (_id_cache s))
                  (_pattern_set s)
                  (_inheritance_todos s ++ inheritance_delayed (length (rows s)) values)
                  (_instruction_todos s ++ [length (rows s)])
                  (rows s ++ [row_created values]) (meshes s) (links s)).
Proof.
  intros Hid Hh. unfold _row, id_cache_set, inheritance_delayed, row_created.
  rewrite Hid. simpl. destruct (rd_same_as values); simpl; rewrite Hh; simpl;
    rewrite ?app_nil_r; done.
Qed.

Lemma _rows_accepted spec s :
  Forall row_accepted spec → ∃ rs s', _rows spec s = Return (rs, s').
Proof.
  intros H. revert s. induction H as [|values spec (id_ & Hid & Hh) _ IH]; intros s.
  - by eexists _, _.
  - simpl. rewrite (_row_accepted values s id_ Hid Hh). simpl.
    match goal with |- context [_rows spec ?s1] => destruct (IH s1) as (rs & s2 & H2) end.
    rewrite H2. by eexists _, _.
Qed.

Lemma row_created_accepted values :
  is_Some (rd_id values) → hashable (row_id (row_created values)) = true →
  row_accepted values.
Proof.
  intros [id_ Hid] Hh. exists id_. split; [done|].
  unfold row_created in Hh. simpl in Hh. by rewrite Hid in Hh.
Qed.

(** Property X2. [_rows] returns exactly when every row descriptor has an id
    that can be a key; the rows it returns are new, one per descriptor and
    in the order of the descriptors, and the ids of the rows of the arena
    are the former ones followed by the ids of the descriptors. *)
Theorem _rows_outcome spec s :
  (Forall row_accepted spec ↔ ∃ rs s', _rows spec s = Return (rs, s')) ∧
  (∀ rs s', _rows spec s = Return (rs, s') →
     rs = seq (length (rows s)) (length spec) ∧
     row_id <$> rows s' =
       (row_id <$> rows s) ++ omap (fun values => _to_id <$> rd_id values) spec ∧
     Forall (fun row => row_instructions row = [])
            (drop (length (rows s)) (rows s'))).
Proof.
  split; [split|].
  - apply _rows_accepted.
  - intros (rs & s' & H). apply _rows_Return in H as (_ & Hall & _).
    eapply Forall_impl; [exact Hall|]. intros values [H1 H2].
    by apply row_created_accepted.
  - intros rs s' H. apply _rows_Return in H as (-> & Hall & ->). simpl.
    split; [done|]. split.
    + rewrite fmap_app. f_equal. rewrite row_ids_created by done.
      by rewrite <- list_fmap_compose.
    + rewrite drop_app_length. apply Forall_fmap. by apply Forall_true.
Qed.

(** Property X8. Resolving connections changes links only: rows, meshes, the id
    cache, both queues and the pattern set are as before. *)
Theorem _connect_rows_changes_links_only connections s s' :
  _connect_rows connections s = Return s' →
  rows s' = rows s ∧ meshes s' = meshes s ∧ _id_cache s' = _id_cache s ∧
  _inheritance_todos s' = _inheritance_todos s ∧
  _instruction_todos s' = _instruction_todos s ∧
  _pattern_set s' = _pattern_set s.
Proof.
  intros H. apply _connect_rows_Return in H as (_ & _ & H). by rewrite H.
Qed.

Lemma assert_Return condition a : assert condition = Return a → condition = true.
Proof. by destruct condition. Qed.

Lemma mesh_pairs_no_from connection s :
  cd_from connection = None → mesh_pairs connection s = Raise (KeyError (PStr FROM)).
Proof. unfold mesh_pairs. by intros ->. Qed.

Lemma id_cache_get_absent key s :
  hashable key = true → _id_cache s !! key = None →
  id_cache_get key s = Raise (KeyError key).
Proof. unfold id_cache_get. by intros -> ->. Qed.

Lemma id_cache_get_present key s row :
  hashable key = true → _id_cache s !! key = Some row →
  id_cache_get key s = Return row.
Proof. unfold id_cache_get. by intros -> ->. Qed.

(** Property X5. The keys of a connection are read in the order of the source:
    the errors of the source end come before those of the target end. A
    connection without [from] raises [KeyError('from')], a source end
    without id raises [KeyError('id')], a source id that is not cached
    raises a [KeyError] with that id, whatever the target end is; the same
    errors of the target end are raised once the source row is found. *)
Theorem connection_key_errors connection s :
  (cd_from connection = None →
   mesh_pairs connection s = Raise (KeyError (PStr FROM))) ∧
  (∀ from, cd_from connection = Some from → ed_id from = None →
           mesh_pairs connection s = Raise (KeyError (PStr ID))) ∧
  (∀ from id_, cd_from connection = Some from → ed_id from = Some id_ →
               hashable (_to_id id_) = true → _id_cache s !! _to_id id_ = None →
               mesh_pairs connection s = Raise (KeyError (_to_id id_))) ∧
  (∀ from id_ row, cd_from connection = Some from → ed_id from = Some id_ →
                   id_cache_get (_to_id id_) s = Return row →
     (cd_to connection = None →
      mesh_pairs connection s = Raise (KeyError (PStr TO))) ∧
     (∀ to, cd_to connection = Some to → ed_id to = None →
            mesh_pairs connection s = Raise (KeyError (PStr ID))) ∧
     (∀ to to_id, cd_to connection = Some to → ed_id to = Some to_id →
                  hashable (_to_id to_id) = true →
                  _id_cache s !! _to_id to_id = None →
                  mesh_pairs connection s = Raise (KeyError (_to_id to_id)))).
Proof.
  split; [apply mesh_pairs_no_from|]. split; [|split].
  - intros from Hf Hi. unfold mesh_pairs. rewrite Hf. simpl. by rewrite Hi.
  - intros from id_ Hf Hi Hh Hc. unfold mesh_pairs. rewrite Hf. simpl. rewrite Hi.
    simpl. by rewrite id_cache_get_absent.
  - intros from id_ row Hf Hi Hr. split; [|split].
    + intros Ht. unfold mesh_pairs. rewrite Hf. simpl. rewrite Hi. simpl.
      rewrite Hr. simpl. by rewrite Ht.
    + intros to Ht Hti. unfold mesh_pairs. rewrite Hf. simpl. rewrite Hi. simpl.
      rewrite Hr. simpl. rewrite Ht. simpl. by rewrite Hti.
    + intros to to_id Ht Hti Hh Hc. unfold mesh_pairs. rewrite Hf. simpl.
      rewrite Hi. simpl. rewrite Hr. simpl. rewrite Ht. simpl. rewrite Hti. simpl.
      by rewrite id_cache_get_absent.
Qed.

Section connection_outcomes.
Variables (connection : connection_desc) (s : state).
Variables (from to : endpoint_desc) (from_id to_id : pyval) (fr tr : nat).
Hypothesis Hfrom : cd_from connection = Some from.
Hypothesis Hfrom_id : ed_id from = Some from_id.
Hypothesis Hfrom_row : id_cache_get (_to_id from_id) s = Return fr.
Hypothesis Hto : cd_to connection = Some to.
Hypothesis Hto_id : ed_id to = Some to_id.
Hypothesis Hto_row : id_cache_get (_to_id to_id) s = Return tr.

Let from_row := rows s !!! fr.
Let to_row := rows s !!! tr.
Let from_start := default DEFAULT_START (ed_start from).
Let to_start := default DEFAULT_START (ed_start to).

(** Property X6. When the descriptor gives no number of meshes, the connection
    is accepted exactly when both start indices lie within their rows, and
    it then has as many pairs as the smaller of the two numbers of meshes
    left after the start indices; a start index that is negative or beyond
    the end of its row raises an [AssertionError]. *)
Theorem connection_without_meshes :
  cd_meshes connection = None →
  let available_from := number_of_produced_meshes from_row - from_start in
  let available_to := number_of_consumed_meshes to_row - to_start in
  (0 ≤ from_start ≤ number_of_produced_meshes from_row ∧
   0 ≤ to_start ≤ number_of_consumed_meshes to_row →
   ∃ pairs, mesh_pairs connection s = Return pairs ∧
            Z.of_nat (length pairs) = Z.min available_from available_to) ∧
  (¬ (0 ≤ from_start ≤ number_of_produced_meshes from_row ∧
      0 ≤ to_start ≤ number_of_consumed_meshes to_row) →
   mesh_pairs connection s = Raise AssertionError).
Proof.
  intros Hm available_from available_to.
  rewrite (mesh_pairs_resolved connection s from to from_id to_id fr tr) by done.
  rewrite Hm. simpl. fold from_row to_row from_start to_start.
  unfold available_from, available_to, number_of_produced_meshes,
    number_of_consumed_meshes in *.
  set (P := row_produced_meshes from_row) in *.
  set (C := row_consumed_meshes to_row) in *.
  set (count := Z.min (Z.of_nat (length P) - from_start) (Z.of_nat (length C) - to_start)).
  split.
  - intros [H1 H2].
    assert (Z.of_nat (length (slice P from_start (from_start + count))) = count)
      as HlenP by (rewrite length_slice; lia).
    assert (Z.of_nat (length (slice C to_start (to_start + count))) = count)
      as HlenC by (rewrite length_slice; lia).
    rewrite !bool_decide_eq_true_2 by lia. simpl.
    eexists. split; [reflexivity|]. rewrite length_zip_with. lia.
  - intros Hno.
    destruct (decide (0 ≤ from_start ≤ from_start + count)) as [H1|H1];
      [|by rewrite (bool_decide_eq_false_2 _ H1)].
    rewrite (bool_decide_eq_true_2 _ H1). simpl.
    destruct (decide (0 ≤ to_start ≤ to_start + count)) as [H2|H2];
      [|by rewrite (bool_decide_eq_false_2 _ H2)].
    lia.
Qed.

(** Property X7. Whenever a connection is accepted, with or without a given
    number of meshes and also when its slices are cut short, its start
    indices are not negative and its [i]-th pair is the produced mesh
    [from_start + i] of the source row and the consumed mesh [to_start + i]
    of the target row: no mesh outside the two rows is linked and the pairs
    are never shifted against each other. *)
Theorem accepted_connection_pairs pairs :
  mesh_pairs connection s = Return pairs →
  0 ≤ from_start ∧ 0 ≤ to_start ∧
  ∀ i produced_mesh consumed_mesh,
    pairs !! i = Some (produced_mesh, consumed_mesh) →
    row_produced_meshes from_row !! (Z.to_nat from_start + i)%nat = Some produced_mesh ∧
    row_consumed_meshes to_row !! (Z.to_nat to_start + i)%nat = Some consumed_mesh.
Proof.
  rewrite (mesh_pairs_resolved connection s from to from_id to_id fr tr) by done.
  fold from_row to_row from_start to_start. intros H.
  inv_bind H. apply assert_Return, bool_decide_eq_true in Ha.
  inv_bind H. apply assert_Return, bool_decide_eq_true in Ha0.
  inv_bind H. injection H as <-.
  split; [lia|]. split; [lia|]. intros i p c Hi.
  apply lookup_zip_with_Some in Hi as (p' & c' & [= <- <-] & Hp & Hc).
  unfold slice in Hp, Hc.
  apply lookup_take_Some in Hp as [Hp _], Hc as [Hc _].
  rewrite lookup_drop in Hp, Hc. done.
Qed.
End connection_outcomes.

Lemma connect_and_build_Return base rs s p s' :
  connect_and_build base rs s = Return (p, s') →
  pattern_of_descriptor p base ∧ pattern_rows p = rs ∧
  _connect_rows (connections_of_pattern base) s = Return s'.
Proof.
  unfold connect_and_build, pattern_of_descriptor. intros H.
  inv_bind H. inv_bind H. inv_bind H. injection H as <- <-. simpl.
  destruct (pd_id base); [|done]. destruct (pd_name base); [|done].
  simpl in *. by simplify_eq.
Qed.

Lemma _pattern_of_descriptor base s p s' :
  _pattern base s = Return (p, s') → pattern_of_descriptor p base.
Proof.
  rewrite _pattern_phases. intros H. inv_bind H. destruct a as [rs s3].
  by apply connect_and_build_Return in H as (H & _).
Qed.

Lemma fill_patterns_of_descriptors patterns s collection s' :
  fill_patterns patterns s = Return (collection, s') →
  Forall2 pattern_of_descriptor collection patterns.
Proof.
  revert s collection. induction patterns as [|base patterns IH]; intros s collection H;
    simpl in H.
  - injection H as <- <-. constructor.
  - inv_bind H. destruct a as [p s1]. inv_bind H. destruct a as [c s2].
    injection H as <- <-. constructor; [by eapply _pattern_of_descriptor|by eapply IH].
Qed.

Lemma _create_pattern_set_outcome collection values s :
  _create_pattern_set collection values s =
  match sd_type values with
  | None => Raise (ParsingError NoPatternTypeGiven)
  | Some type_ =>
      if bool_decide (type_ = KNITTING_PATTERN_TYPE) then
        match sd_version values with
        | None => Raise (KeyError (PStr VERSION))
        | Some version =>
            Return (set_pattern_set
                      (Some {| set_type := type_; set_version := version;
                               set_patterns := collection;
                               set_comment := sd_comment values |}) s)
        end
      else Raise (ParsingError (WrongPatternType type_))
  end.
Proof.
  unfold _create_pattern_set, _get_type, _get_version.
  destruct (sd_type values) as [type_|]; [|done].
  case_bool_decide; [|done]. simpl. by destruct (sd_version values).
Qed.

Lemma knitting_pattern_set_unfold values s :
  knitting_pattern_set values s =
  ('(collection, s1) ← fill_patterns (patterns_of_set values) (new_arena (_start s));
   s2 ← _create_pattern_set collection values s1;
   Return (_pattern_set s2, s2)).
Proof. reflexivity. Qed.

(** Property X10. When [knitting_pattern_set] returns, the pattern set it returns
    is the one kept in the parser; its type is "knitting pattern", its
    version and its comment are those of the descriptor, and it has one
    pattern for each pattern descriptor, in the same order, with the id and
    the name of the descriptor. *)
Theorem knitting_pattern_set_result values s parsed s' :
  knitting_pattern_set values s = Return (parsed, s') →
  ∃ pattern_set,
    parsed = Some pattern_set ∧ _pattern_set s' = Some pattern_set ∧
    sd_type values = Some KNITTING_PATTERN_TYPE ∧
    set_type pattern_set = KNITTING_PATTERN_TYPE ∧
    sd_version values = Some (set_version pattern_set) ∧
    set_comment pattern_set = sd_comment values ∧
    Forall2 pattern_of_descriptor (set_patterns pattern_set) (patterns_of_set values).
Proof.
  rewrite knitting_pattern_set_unfold. intros H. inv_bind H.
  destruct a as [collection s1]. inv_bind H. injection H as <- <-.
  apply fill_patterns_of_descriptors in Ha.
  rewrite _create_pattern_set_outcome in Ha0.
  destruct (sd_type values) as [type_|]; [|done].
  case_bool_decide as Ht; [|done]. destruct (sd_version values) as [version|]; [|done].
  injection Ha0 as <-. subst type_. eexists. simpl. done.
Qed.

(** Property X11. The type and the version of a pattern set are looked at after
    all its patterns are parsed: an exception of a pattern is the exception
    of [knitting_pattern_set] whatever the type is; when the patterns are
    parsed, a missing type and a type other than "knitting pattern" raise a
    [ParsingError], a missing version raises [KeyError('version')], and
    else a pattern set is returned. *)
Theorem knitting_pattern_set_errors values s :
  (∀ e, fill_patterns (patterns_of_set values) (new_arena (_start s)) = Raise e →
        knitting_pattern_set values s = Raise e) ∧
  (∀ parsed, fill_patterns (patterns_of_set values) (new_arena (_start s)) = Return parsed →
     (sd_type values = None →
      knitting_pattern_set values s = Raise (ParsingError NoPatternTypeGiven)) ∧
     (∀ type_, sd_type values = Some type_ → type_ ≠ KNITTING_PATTERN_TYPE →
        knitting_pattern_set values s = Raise (ParsingError (WrongPatternType type_))) ∧
     (sd_type values = Some KNITTING_PATTERN_TYPE → sd_version values = None →
      knitting_pattern_set values s = Raise (KeyError (PStr VERSION))) ∧
     (sd_type values = Some KNITTING_PATTERN_TYPE → is_Some (sd_version values) →
      ∃ pattern_set s', knitting_pattern_set values s = Return (Some pattern_set, s'))).
Proof.
  split.
  - intros e H. rewrite knitting_pattern_set_unfold. by rewrite H.
  - intros [collection s1] H. rewrite knitting_pattern_set_unfold, H. simpl.
    rewrite _create_pattern_set_outcome.
    split; [by intros ->|]. split; [|split].
    + intros type_ -> Hne. by rewrite bool_decide_eq_false_2.
    + intros -> ->. by rewrite bool_decide_eq_true_2.
    + intros -> [version ->]. rewrite bool_decide_eq_true_2 by done. simpl.
      by eexists _, _.
Qed.

(** Property X9. [_pattern] reads the id and the name of a pattern last: an
    exception of its rows or of its connections is raised also when the id
    is missing; when rows and connections are done, a missing id raises
    [KeyError('id')], a missing name [KeyError('name')], and else the
    pattern has the id, made a tuple when it is a list, the name, and the
    rows of [_rows]. *)
Theorem _pattern_id_and_name_last base s :
  (∀ e, rows_finished base s = Raise e → _pattern base s = Raise e) ∧
  (∀ rs s3, rows_finished base s = Return (rs, s3) →
     (∀ e, _connect_rows (connections_of_pattern base) s3 = Raise e →
           _pattern base s = Raise e) ∧
     (∀ s4, _connect_rows (connections_of_pattern base) s3 = Return s4 →
        (pd_id base = None → _pattern base s = Raise (KeyError (PStr ID))) ∧
        (is_Some (pd_id base) → pd_name base = None →
         _pattern base s = Raise (KeyError (PStr NAME))) ∧
        (∀ id_ name, pd_id base = Some id_ → pd_name base = Some name →
           _pattern base s =
           Return ({| pattern_id := _to_id id_; pattern_name := name;
                      pattern_rows := rs |}, s4)))).
Proof.
  rewrite _pattern_phases. split; [by intros e ->|].
  intros rs s3 ->. simpl. unfold connect_and_build. split; [by intros e ->|].
  intros s4 ->. simpl. split; [by intros ->|]. split.
  - by intros [id_ ->] ->.
  - by intros id_ name -> ->.
Qed.

Lemma finish_queues_empty s :
  _inheritance_todos s = [] → _instruction_todos s = [] →
  _finish_inheritance s = Return s ∧ _finish_instructions s = Return s.
Proof. unfold _finish_inheritance, _finish_instructions. by intros -> ->. Qed.

(** Property X12. A pattern set without patterns, the key absent or the list
    empty, is parsed to a pattern set without patterns, and nothing is
    created or cached; a pattern without rows and without connections is
    parsed to a pattern without rows and leaves the parser as it was. *)
Theorem empty_descriptors :
  (∀ values s version,
     absent_or_empty (sd_patterns values) →
     sd_type values = Some KNITTING_PATTERN_TYPE →
     sd_version values = Some version →
     ∃ s', knitting_pattern_set values s =
             Return (Some {| set_type := KNITTING_PATTERN_TYPE;
                             set_version := version; set_patterns := [];
                             set_comment := sd_comment values |}, s') ∧
           rows s' = [] ∧ meshes s' = [] ∧ links s' = ∅ ∧ _id_cache s' = ∅) ∧
  (∀ base s id_ name,
     absent_or_empty (pd_rows base) → absent_or_empty (pd_connections base) →
     pd_id base = Some id_ → pd_name base = Some name →
     _inheritance_todos s = [] → _instruction_todos s = [] →
     _pattern base s =
     Return ({| pattern_id := _to_id id_; pattern_name := name; pattern_rows := [] |}, s)).
Proof.
  split.
  - intros values s version Hp Ht Hv. rewrite knitting_pattern_set_unfold.
    unfold patterns_of_set. assert (default [] (sd_patterns values) = []) as ->
      by by destruct Hp as [-> | ->].
    simpl. rewrite _create_pattern_set_outcome, Ht, Hv.
    rewrite bool_decide_eq_true_2 by done. simpl. by eexists.
  - intros base s id_ name Hr Hc Hid Hname Hq1 Hq2. unfold _pattern.
    assert (default [] (pd_rows base) = []) as -> by by destruct Hr as [-> | ->].
    assert (default [] (pd_connections base) = []) as ->
      by by destruct Hc as [-> | ->].
    simpl. destruct (finish_queues_empty s Hq1 Hq2) as [H1 H2].
    rewrite H1. simpl. rewrite H2. simpl. by rewrite Hid, Hname.
Qed.

Lemma _pattern_rows_ids base s p s' :
  _pattern base s = Return (p, s') →
  row_id <$> rows s' = (row_id <$> rows s) ++ row_ids base ∧
  pattern_rows p = seq (length (rows s)) (length (row_ids base)) ∧
  length (rows s') = (length (rows s) + length (row_ids base))%nat.
Proof.
  intros H. pose proof (_pattern_rows_length _ _ _ _ H) as Hlen.
  apply _pattern_effect in H as (Hrs & Hids & _ & Hid & _).
  rewrite Hids, length_fmap. split; [|done].
  by rewrite Hid, fmap_app, <- list_fmap_compose.
Qed.

Lemma rows_ids_lookup (rs1 rs2 : list Row) ids row :
  row_id <$> rs2 = (row_id <$> rs1) ++ ids → (row < length rs1)%nat →
  row_id (rs2 !!! row) = row_id (rs1 !!! row).
Proof.
  intros H Hrow.
  assert (length rs1 ≤ length rs2)%nat as Hlen.
  { apply (f_equal length) in H. rewrite length_app, !length_fmap in H. lia. }
  destruct (lookup_lt_is_Some_2 rs1 row Hrow) as [r1 H1].
  destruct (lookup_lt_is_Some_2 rs2 row) as [r2 H2]; [lia|].
  rewrite (list_lookup_total_correct _ _ _ H1), (list_lookup_total_correct _ _ _ H2).
  assert ((row_id <$> rs2) !! row = Some (row_id r1)) as H3.
  { rewrite H, lookup_app_l by (rewrite length_fmap; lia).
    by rewrite list_lookup_fmap, H1. }
  rewrite list_lookup_fmap, H2 in H3. by injection H3.
Qed.

Lemma rows_ids_lookup_new (rs1 rs2 : list Row) ids i key :
  row_id <$> rs2 = (row_id <$> rs1) ++ ids → ids !! i = Some key →
  row_id (rs2 !!! (length rs1 + i)%nat) = key.
Proof.
  intros H Hi.
  assert ((row_id <$> rs2) !! (length rs1 + i)%nat = Some key) as H3.
  { rewrite H, lookup_app_r by (rewrite length_fmap; lia).
    rewrite length_fmap. by replace (length rs1 + i - length rs1)%nat with i by lia. }
  rewrite list_lookup_fmap in H3.
  destruct (rs2 !! (length rs1 + i)%nat) as [r2|] eqn:H2; [|done].
  rewrite (list_lookup_total_correct _ _ _ H2). by injection H3.
Qed.

Lemma _pattern_cache_consistent base s p s' :
  _pattern base s = Return (p, s') → cache_consistent s → cache_consistent s'.
Proof.
  intros H Hs key row Hkey.
  destruct (_pattern_rows_ids _ _ _ _ H) as (Hids & _ & Hlen).
  destruct (_pattern_id_cache _ _ _ _ key H) as [Hold Hnew].
  destruct (decide (key ∈ row_ids base)) as [Hin|Hout].
  - destruct (Hnew Hin) as (i & values & Hi & Hv & Hc).
    rewrite Hc in Hkey. injection Hkey as <-.
    assert (row_ids base !! i = Some key) as Hi'.
    { pose proof H as H0. apply _pattern_effect in H0 as (_ & Hfmap & _).
      rewrite Hfmap, list_lookup_fmap, Hi. simpl. f_equal.
      unfold row_created. simpl. destruct (rd_id values); by simplify_eq/=. }
    split; [apply lookup_lt_Some in Hi'; lia|].
    split; [by eapply rows_ids_lookup_new|by eapply _pattern_hashable].
  - rewrite (Hold Hout) in Hkey. destruct (Hs key row Hkey) as (H1 & H2 & H3).
    split; [lia|]. split; [|done]. rewrite <- H2. by eapply rows_ids_lookup.
Qed.

Lemma fill_patterns_cache_consistent patterns s collection s' :
  fill_patterns patterns s = Return (collection, s') →
  cache_consistent s → cache_consistent s'.
Proof.
  revert s collection. induction patterns as [|base patterns IH]; intros s collection H Hs;
    simpl in H.
  - by injection H as <- <-.
  - inv_bind H. destruct a as [p s1]. inv_bind H. destruct a as [c s2].
    injection H as <- <-. eapply IH; [done|]. by eapply _pattern_cache_consistent.
Qed.

Lemma _pattern_id_cache_kept base s p s' key :
  _pattern base s = Return (p, s') →
  is_Some (_id_cache s !! key) ∨ key ∈ row_ids base → is_Some (_id_cache s' !! key).
Proof.
  intros H Hk. destruct (_pattern_id_cache _ _ _ _ key H) as [Hold Hnew].
  destruct (decide (key ∈ row_ids base)) as [Hin|Hout].
  - destruct (Hnew Hin) as (i & values & _ & _ & Hc). by rewrite Hc.
  - rewrite (Hold Hout). by destruct Hk.
Qed.

Lemma fill_patterns_id_cache_dom patterns s collection s' key :
  fill_patterns patterns s = Return (collection, s') →
  is_Some (_id_cache s' !! key) ↔
  is_Some (_id_cache s !! key) ∨ key ∈ concat (row_ids <$> patterns).
Proof.
  revert s collection. induction patterns as [|base patterns IH]; intros s collection H;
    simpl in H.
  - injection H as <- <-. simpl. rewrite elem_of_nil. tauto.
  - inv_bind H. destruct a as [p s1]. inv_bind H. destruct a as [c s2].
    injection H as <- <-. rewrite (IH _ _ Ha0). simpl. rewrite elem_of_app.
    split.
    + intros [Hk|Hk]; [|tauto].
      destruct (_pattern_id_cache_dom _ _ _ _ key Ha Hk); tauto.
    + intros [Hk|[Hk|Hk]]; [left|left|by right];
        eapply _pattern_id_cache_kept; eauto.
Qed.

Lemma fill_patterns_rows patterns s collection s' :
  fill_patterns patterns s = Return (collection, s') →
  row_id <$> rows s' = (row_id <$> rows s) ++ concat (row_ids <$> patterns) ∧
  concat (pattern_rows <$> collection) =
    seq (length (rows s)) (length (concat (row_ids <$> patterns))).
Proof.
  revert s collection. induction patterns as [|base patterns IH]; intros s collection H;
    simpl in H.
  - injection H as <- <-. simpl. by rewrite app_nil_r.
  - inv_bind H. destruct a as [p s1]. inv_bind H. destruct a as [c s2].
    injection H as <- <-.
    destruct (_pattern_rows_ids _ _ _ _ Ha) as (H1 & H2 & H3).
    destruct (IH _ _ Ha0) as (H4 & H5). rewrite !fmap_cons, !concat_cons. split.
    + by rewrite H4, H1, <- app_assoc.
    + by rewrite H2, H5, H3, length_app, seq_app.
Qed.

Lemma new_arena_consistent s : cache_consistent (new_arena (_start s)).
Proof. intros key row H. simpl in H. by rewrite lookup_empty in H. Qed.

(** Property X13. The id cache and the rows agree: parsing a pattern keeps, and
    a whole pattern set establishes, that every entry of the id cache names
    a row that exists and has the key of the entry as its id. *)
Theorem id_cache_names_rows_by_their_id :
  (∀ base s p s', _pattern base s = Return (p, s') →
                  cache_consistent s → cache_consistent s') ∧
  (∀ values s parsed s', knitting_pattern_set values s = Return (parsed, s') →
                         cache_consistent s').
Proof.
  split; [apply _pattern_cache_consistent|].
  intros values s parsed s' H.
  apply knitting_pattern_set_Return in H as (collection & s1 & H & Hc & _).
  apply _create_pattern_set_Return in Hc as (ps & -> & _).
  apply fill_patterns_cache_consistent in H; [|apply new_arena_consistent].
  exact H.
Qed.

(** Property X14. After a pattern set is parsed, the keys of the id cache are
    exactly the ids of the rows of all its patterns, a list made a tuple. *)
Theorem id_cache_keys values s parsed s' key :
  knitting_pattern_set values s = Return (parsed, s') →
  is_Some (_id_cache s' !! key) ↔ key ∈ concat (row_ids <$> patterns_of_set values).
Proof.
  intros H. apply knitting_pattern_set_Return in H as (collection & s1 & H & Hc & _).
  apply _create_pattern_set_Return in Hc as (ps & -> & _). simpl.
  rewrite (fill_patterns_id_cache_dom _ _ _ _ key H). simpl.
  rewrite lookup_empty. split; [intros [[? ?]|?]; done|by right].
Qed.

(** Property X15. Every row belongs to exactly one pattern: the rows of the
    patterns of a parsed set, taken pattern after pattern, are all the rows
    the parser has created, each one once and in the order of the
    descriptors, and the ids of these rows are the ids of the row
    descriptors. *)
Theorem rows_of_the_patterns values s pattern_set s' :
  knitting_pattern_set values s = Return (Some pattern_set, s') →
  concat (pattern_rows <$> set_patterns pattern_set) = seq 0 (length (rows s')) ∧
  NoDup (concat (pattern_rows <$> set_patterns pattern_set)) ∧
  row_id <$> rows s' = concat (row_ids <$> patterns_of_set values).
Proof.
  intros H. apply knitting_pattern_set_Return in H as (collection & s1 & H & Hc & Hp).
  apply _create_pattern_set_Return in Hc as (ps & -> & Hps & _). simpl in *.
  injection Hp as ->. rewrite Hps.
  apply fill_patterns_rows in H as [H1 H2]. simpl in *.
  assert (length (rows s1) = length (concat (row_ids <$> patterns_of_set values))) as Hlen.
  { apply (f_equal length) in H1. by rewrite length_fmap in H1. }
  rewrite H2, Hlen. split; [done|]. split; [apply NoDup_seq|done].
Qed.

Lemma inherit_from_rows prototype parent s :
  (prototype < length (rows s))%nat →
  length (rows (inherit_from prototype parent s)) = length (rows s) ∧
  _id_cache (inherit_from prototype parent s) = _id_cache s ∧
  row_inherited (rows (inherit_from prototype parent s) !!! prototype) =
    parent :: row_inherited (rows s !!! prototype) ∧
  ∀ r, r ≠ prototype → rows (inherit_from prototype parent s) !!! r = rows s !!! r.
Proof.
  intros H. unfold inherit_from. simpl. rewrite length_insert.
  split; [done|]. split; [done|]. split.
  - by rewrite list_lookup_total_insert_eq.
  - intros r Hr. by rewrite list_lookup_total_insert_ne.
Qed.

Lemma finish_inheritance_loop_inherited todos s s' :
  finish_inheritance_loop todos s = Return s' →
  NoDup todos.*1 → (∀ t, t ∈ todos → (t.1 < length (rows s))%nat) →
  (∀ r, r ∉ todos.*1 → row_inherited (rows s' !!! r) = row_inherited (rows s !!! r)) ∧
  (∀ r key, (r, key) ∈ todos →
     ∃ parent, _id_cache s !! key = Some parent ∧
               row_inherited (rows s' !!! r) = parent :: row_inherited (rows s !!! r)).
Proof.
  revert s. induction todos as [|[prototype parent_id] todos IH]; intros s H Hnd Hlt.
  - injection H as <-. split; [done|]. intros r key Hr. by apply elem_of_nil in Hr.
  - cbn [finish_inheritance_loop] in H. inv_bind H.
    apply id_cache_get_Return in Ha. simpl in Ha.
    rewrite fmap_cons in Hnd. apply NoDup_cons in Hnd as [Hp Hnd].
    set (s0 := set_inheritance_todos (reverse todos) s) in *.
    assert (prototype < length (rows s0))%nat as Hp'.
    { apply (Hlt (prototype, parent_id)). by left. }
    destruct (inherit_from_rows prototype a s0 Hp') as (H1 & H2 & H3 & H4).
    apply IH in H as [H5 H6]; [|done|].
    2:{ intros t Ht. rewrite H1. apply Hlt. by right. }
    change (rows s0) with (rows s) in *. change (_id_cache s0) with (_id_cache s) in *.
    split.
    + intros r Hr. rewrite fmap_cons in Hr. apply not_elem_of_cons in Hr as [Hr1 Hr2].
      by rewrite H5, H4.
    + intros r key Hr. apply elem_of_cons in Hr as [[= -> ->]|Hr].
      * exists a. split; [done|]. by rewrite H5, H3.
      * destruct (H6 r key Hr) as (parent & H7 & H8). exists parent.
        rewrite <- H2. split; [done|]. rewrite H8, H4; [done|].
        intros ->. apply Hp. apply list_elem_of_fmap. by exists (prototype, key).
Qed.

Lemma delayed_elem (n : nat) spec r key :
  (r, key) ∈ concat (zip_with inheritance_delayed (seq n (length spec)) spec) ↔
  ∃ i values parent, spec !! i = Some values ∧ r = (n + i)%nat ∧
                     rd_same_as values = Some parent ∧ key = _to_id parent.
Proof.
  revert n. induction spec as [|values spec IH]; intros n.
  - simpl. rewrite elem_of_nil. split; [done|]. by intros (i & ? & ? & ? & _).
  - cbn [length seq zip_with concat]. rewrite elem_of_app, IH. split.
    + intros [H|(i & v & parent & H1 & -> & H2 & ->)].
      * unfold inheritance_delayed in H. destruct (rd_same_as values) as [parent|] eqn:E.
        -- apply list_elem_of_singleton in H as [= -> ->].
           exists 0%nat, values, parent. by rewrite Nat.add_0_r.
        -- by apply elem_of_nil in H.
      * exists (S i), v, parent. split; [done|]. split; [lia|done].
    + intros ([|i] & v & parent & H1 & -> & H2 & ->).
      * left. injection H1 as ->. unfold inheritance_delayed. rewrite H2.
        rewrite Nat.add_0_r. by left.
      * right. exists i, v, parent. split; [done|]. split; [lia|done].
Qed.

Lemma delayed_sublist (n : nat) spec :
  (concat (zip_with inheritance_delayed (seq n (length spec)) spec)).*1
  `sublist_of` seq n (length spec).
Proof.
  revert n. induction spec as [|values spec IH]; intros n; [done|].
  cbn [length seq zip_with concat]. rewrite fmap_app.
  unfold inheritance_delayed at 1. destruct (rd_same_as values); simpl.
  - by apply sublist_skip.
  - by apply sublist_cons.
Qed.

Lemma rows_finished_inherited base s rs s3 i values :
  rows_finished base s = Return (rs, s3) →
  _inheritance_todos s = [] →
  rows_of_pattern base !! i = Some values →
  match rd_same_as values with
  | None => row_inherited (rows s3 !!! (length (rows s) + i)%nat) = []
  | Some parent =>
      ∃ r, _id_cache s3 !! _to_id parent = Some r ∧
           row_inherited (rows s3 !!! (length (rows s) + i)%nat) = [r]
  end.
Proof.
  unfold rows_finished. intros H Hq Hi. inv_bind H. destruct a as [rs' s1].
  inv_bind H. inv_bind H. injection H as <- <-.
  apply _rows_Return in Ha as (-> & _ & ->).
  apply _finish_instructions_Return in Ha1 as (_ & Hc3 & _ & _ & _ & _ & _ & Hin3).
  set (n := length (rows s)) in *.
  set (spec := rows_of_pattern base) in *.
  set (s1 := mkState _ _ _ _ _ _ _) in *.
  assert (∀ j v, spec !! j = Some v → row_inherited (rows s1 !!! (n + j)%nat) = []) as Hnew.
  { intros j v Hj. rewrite (list_lookup_total_correct _ _ (row_created v)); [done|].
    simpl. rewrite lookup_app_r by lia.
    replace (n + j - length (rows s))%nat with j by lia.
    by rewrite list_lookup_fmap, Hj. }
  pose proof (_finish_inheritance_Return _ _ Ha0) as (_ & _ & Hc2 & _).
  unfold _finish_inheritance in Ha0. simpl in Ha0. rewrite Hq in Ha0. simpl in Ha0.
  apply finish_inheritance_loop_inherited in Ha0 as [H1 H2].
  2:{ rewrite fmap_reverse, reverse_Permutation.
      eapply sublist_NoDup; [apply NoDup_seq|apply delayed_sublist]. }
  2:{ intros [r key] Ht. rewrite elem_of_reverse in Ht.
      apply delayed_elem in Ht as (j & v & parent & Hj & -> & _).
      simpl. rewrite length_app, length_fmap. apply lookup_lt_Some in Hj. lia. }
  rewrite (total_lookup_fmap row_inherited (rows a0) (rows a) _ Hin3).
  destruct (rd_same_as values) as [parent|] eqn:E.
  - destruct (H2 (n + i)%nat (_to_id parent)) as (r & H3 & H4).
    { rewrite elem_of_reverse. apply delayed_elem. by exists i, values, parent. }
    exists r. rewrite Hc3, Hc2. split.
    + exact H3.
    + by rewrite H4, (Hnew i values).
  - rewrite H1; [by eapply Hnew|].
    rewrite fmap_reverse, elem_of_reverse. intros Hr.
    apply list_elem_of_fmap in Hr as ([r key] & Hr & Ht). simpl in Hr. subst r.
    apply delayed_elem in Ht as (j & v & parent & Hj & Heq & Hs & _).
    assert (j = i) as -> by lia. congruence.
Qed.

(** Property X4. Same-as references are resolved once per row and against the
    id cache as it is when all rows of the pattern are created: after
    [_pattern], a new row without same-as reference inherits from no row,
    and a new row with one inherits from exactly the row that the id cache
    holds under the referenced id, a list made a tuple; the reference may
    therefore point to a row defined later in the same pattern. *)
Theorem same_as_resolved base s p s' i values :
  _pattern base s = Return (p, s') →
  _inheritance_todos s = [] →
  rows_of_pattern base !! i = Some values →
  match rd_same_as values with
  | None => row_inherited (rows s' !!! (length (rows s) + i)%nat) = []
  | Some parent =>
      ∃ r, _id_cache s' !! _to_id parent = Some r ∧
           row_inherited (rows s' !!! (length (rows s) + i)%nat) = [r]
  end.
Proof.
  rewrite _pattern_phases. intros H Hq Hi. inv_bind H. destruct a as [rs s3].
  pose proof (rows_finished_inherited _ _ _ _ _ _ Ha Hq Hi) as Hin.
  apply connect_and_build_Return in H as (_ & _ & H).
  apply _connect_rows_Return in H as (_ & _ & ->). exact Hin.
Qed.

Lemma _row_rejected values s :
  ¬ row_accepted values →
  _row values s = Raise (match rd_id values with
                         | Some _ => TypeError
                         | None => KeyError (PStr ID)
                         end).
Proof.
  intros H. unfold _row, id_cache_set. destruct (rd_id values) as [id_|] eqn:E; [|done].
  simpl. destruct (hashable (_to_id id_)) eqn:Hh.
  - destruct H. by exists id_.
  - by destruct (rd_same_as values).
Qed.

(** Property X3. [_rows] stops at the first row descriptor it cannot accept:
    when the descriptors before it are accepted, the exception is
    [KeyError('id')] if that descriptor has no id and [TypeError] if its
    id cannot be a key, whatever the descriptors after it are. *)
Theorem _rows_first_rejected accepted values rest s :
  Forall row_accepted accepted → ¬ row_accepted values →
  _rows (accepted ++ values :: rest) s =
  Raise (match rd_id values with
         | Some _ => TypeError
         | None => KeyError (PStr ID)
         end).
Proof.
  intros Ha Hv. revert s. induction Ha as [|v accepted (id_ & Hid & Hh) _ IH]; intros s.
  - simpl. by rewrite _row_rejected.
  - simpl. rewrite (_row_accepted v s id_ Hid Hh). simpl. by rewrite IH.
Qed.

Lemma rows_of_outcome :
  ∃ rs s', _rows [row_of (PInt 1) [knit]; row_of (PList list_id) [knit]] initial_state
           = Return (rs, s').
Proof.
  apply (proj1 (proj1 (_rows_outcome
                         [row_of (PInt 1) [knit]; row_of (PList list_id) [knit]]
                         initial_state))).
  repeat constructor; eexists; (split; [reflexivity|reflexivity]).
Defined.

Lemma row_without_id_rejected :
  _rows [row_of (PInt 1) [knit]; row_without_id; row_of (PInt 2) [knit]] initial_state
  = Raise (KeyError (PStr ID)).
Proof.
  apply (_rows_first_rejected [row_of (PInt 1) [knit]] row_without_id
           [row_of (PInt 2) [knit]] initial_state).
  - repeat constructor. eexists. split; reflexivity.
  - intros (id_ & H & _). discriminate H.
Defined.

Lemma inheriting_pattern_parsed :
  _pattern inheriting_pattern initial_state
  = Return (inheriting_parsed.1, inheriting_parsed.2).
Proof. vm_compute. reflexivity. Qed.

Lemma forward_same_as_resolved :
  ∃ r, _id_cache inheriting_parsed.2 !! _to_id (PInt 2) = Some r ∧
       row_inherited (rows inheriting_parsed.2 !!! (length (rows initial_state) + 0)%nat)
       = [r].
Proof.
  exact (same_as_resolved inheriting_pattern initial_state inheriting_parsed.1
           inheriting_parsed.2 0 (row_same_as (PInt 1) (PInt 2))
           inheriting_pattern_parsed eq_refl eq_refl).
Defined.

Lemma connection_without_ends_raises :
  mesh_pairs connection_without_ends initial_state = Raise (KeyError (PStr FROM)).
Proof.
  exact (proj1 (connection_key_errors connection_without_ends initial_state) eq_refl).
Defined.

Lemma first_pattern_first_row :
  id_cache_get (_to_id (PInt 1)) (state_at_connections first_pattern) = Return 0%nat.
Proof. vm_compute. reflexivity. Qed.

Lemma first_pattern_second_row :
  id_cache_get (_to_id (PInt 2)) (state_at_connections first_pattern) = Return 1%nat.
Proof. vm_compute. reflexivity. Qed.

Lemma first_connection_without_meshes :
  ∃ pairs, mesh_pairs (connection_of (PInt 1) (PInt 2)) (state_at_connections first_pattern)
           = Return pairs ∧ length pairs = 2%nat.
Proof.
  destruct (connection_without_meshes (connection_of (PInt 1) (PInt 2))
              (state_at_connections first_pattern)
              {| ed_id := Some (PInt 1); ed_start := None |}
              {| ed_id := Some (PInt 2); ed_start := None |}
              (PInt 1) (PInt 2) 0%nat 1%nat eq_refl eq_refl first_pattern_first_row
              eq_refl eq_refl first_pattern_second_row eq_refl) as [H _].
  destruct H as (pairs & Hp & Hl); [by vm_compute|].
  exists pairs. split; [exact Hp|]. apply Nat2Z.inj. rewrite Hl. by vm_compute.
Defined.

Lemma first_connection_pairs :
  ∃ pairs, mesh_pairs (connection_of (PInt 1) (PInt 2)) (state_at_connections first_pattern)
           = Return pairs ∧
    ∀ i produced_mesh consumed_mesh,
      pairs !! i = Some (produced_mesh, consumed_mesh) →
      row_produced_meshes (rows (state_at_connections first_pattern) !!! 0%nat)
        !! (Z.to_nat (default DEFAULT_START None) + i)%nat = Some produced_mesh ∧
      row_consumed_meshes (rows (state_at_connections first_pattern) !!! 1%nat)
        !! (Z.to_nat (default DEFAULT_START None) + i)%nat = Some consumed_mesh.
Proof.
  destruct (mesh_pairs (connection_of (PInt 1) (PInt 2))
              (state_at_connections first_pattern)) as [e|pairs] eqn:E;
    [by vm_compute in E|].
  exists pairs. split; [reflexivity|].
  exact (proj2 (proj2 (accepted_connection_pairs (connection_of (PInt 1) (PInt 2))
              (state_at_connections first_pattern)
              {| ed_id := Some (PInt 1); ed_start := None |}
              {| ed_id := Some (PInt 2); ed_start := None |}
              (PInt 1) (PInt 2) 0%nat 1%nat eq_refl eq_refl first_pattern_first_row
              eq_refl eq_refl first_pattern_second_row pairs E))).
Defined.

Lemma first_connection_changes_links_only :
  ∃ s', _connect_rows [connection_of (PInt 1) (PInt 2)] (state_at_connections first_pattern)
        = Return s' ∧
        rows s' = rows (state_at_connections first_pattern) ∧
        meshes s' = meshes (state_at_connections first_pattern).
Proof.
  destruct (_connect_rows [connection_of (PInt 1) (PInt 2)]
              (state_at_connections first_pattern)) as [e|s'] eqn:E;
    [by vm_compute in E|].
  exists s'. split; [reflexivity|].
  destruct (_connect_rows_changes_links_only _ _ _ E) as (H1 & H2 & _).
  exact (conj H1 H2).
Defined.

Lemma anonymous_pattern_connected :
  ∃ rs s3 s4, rows_finished anonymous_pattern initial_state = Return (rs, s3) ∧
              _connect_rows (connections_of_pattern anonymous_pattern) s3 = Return s4.
Proof.
  destruct (rows_finished anonymous_pattern initial_state) as [e|[rs s3]] eqn:E;
    [by vm_compute in E|].
  vm_compute in E. injection E as <- <-.
  eexists _, _, _. split; [reflexivity|]. vm_compute. reflexivity.
Qed.

Lemma anonymous_pattern_raises :
  _pattern anonymous_pattern initial_state = Raise (KeyError (PStr ID)).
Proof.
  destruct anonymous_pattern_connected as (rs & s3 & s4 & E & E4).
  exact (proj1 (proj2 (proj2 (_pattern_id_and_name_last anonymous_pattern initial_state)
                         rs s3 E) s4 E4) eq_refl).
Defined.

Lemma two_patterns_parsed :
  ∃ pattern_set s', knitting_pattern_set two_patterns initial_state
                    = Return (Some pattern_set, s').
Proof.
  destruct (knitting_pattern_set two_patterns initial_state) as [e|[[ps|] s']] eqn:E.
  - by vm_compute in E.
  - by eexists _, _.
  - by vm_compute in E.
Qed.

Lemma two_patterns_result :
  ∃ pattern_set s',
    knitting_pattern_set two_patterns initial_state = Return (Some pattern_set, s') ∧
    set_type pattern_set = KNITTING_PATTERN_TYPE ∧
    Forall2 pattern_of_descriptor (set_patterns pattern_set) [first_pattern; second_pattern].
Proof.
  destruct two_patterns_parsed as (pattern_set & s' & E).
  destruct (knitting_pattern_set_result two_patterns initial_state _ _ E)
    as (ps & [= <-] & _ & _ & H1 & _ & _ & H2).
  exists pattern_set, s'. exact (conj E (conj H1 H2)).
Defined.

Lemma first_pattern_filled :
  ∃ parsed, fill_patterns (patterns_of_set crochet_set) (new_arena (_start initial_state))
            = Return parsed.
Proof.
  destruct (fill_patterns (patterns_of_set crochet_set) (new_arena (_start initial_state)))
    as [e|parsed] eqn:E; [by vm_compute in E|].
  by exists parsed.
Qed.

Lemma crochet_set_raises :
  knitting_pattern_set crochet_set initial_state
  = Raise (ParsingError (WrongPatternType "crochet")).
Proof.
  destruct first_pattern_filled as (parsed & E).
  apply (proj1 (proj2 (proj2 (knitting_pattern_set_errors crochet_set initial_state)
                         parsed E)) "crochet"%string eq_refl).
  discriminate.
Defined.

Lemma empty_pattern_parsed :
  _pattern empty_pattern initial_state =
  Return ({| pattern_id := _to_id (PStr "empty"); pattern_name := "empty";
             pattern_rows := [] |}, initial_state).
Proof.
  apply (proj2 empty_descriptors empty_pattern initial_state (PStr "empty") "empty"%string).
  - by right.
  - by right.
  - reflexivity.
  - reflexivity.
  - reflexivity.
  - reflexivity.
Defined.

Lemma two_patterns_cache_consistent :
  ∃ parsed s', knitting_pattern_set two_patterns initial_state = Return (parsed, s') ∧
               cache_consistent s'.
Proof.
  destruct two_patterns_parsed as (pattern_set & s' & E).
  exists (Some pattern_set), s'. split; [exact E|].
  exact (proj2 id_cache_names_rows_by_their_id two_patterns initial_state _ _ E).
Defined.

Lemma two_patterns_cache_keys :
  ∃ parsed s', knitting_pattern_set two_patterns initial_state = Return (parsed, s') ∧
               is_Some (_id_cache s' !! PInt 3).
Proof.
  destruct two_patterns_parsed as (pattern_set & s' & E).
  exists (Some pattern_set), s'. split; [exact E|].
  apply (id_cache_keys two_patterns initial_state _ _ (PInt 3) E).
  apply (bool_decide_unpack _). by vm_compute.
Defined.

Lemma two_patterns_rows :
  ∃ pattern_set s',
    knitting_pattern_set two_patterns initial_state = Return (Some pattern_set, s') ∧
    concat (pattern_rows <$> set_patterns pattern_set) = seq 0 (length (rows s')) ∧
    row_id <$> rows s' = concat (row_ids <$> patterns_of_set two_patterns).
Proof.
  destruct two_patterns_parsed as (pattern_set & s' & E).
  exists pattern_set, s'. split; [exact E|].
  destruct (rows_of_the_patterns two_patterns initial_state _ _ E) as (H1 & _ & H2).
  exact (conj H1 H2).
Defined.

Lemma mesh_pairs_links connection l s :
  mesh_pairs connection (set_links l s) = mesh_pairs connection s.
Proof. reflexivity. Qed.

Lemma _connect_rows_accepted connections s :
  Forall (connection_accepted s) connections →
  ∃ s', _connect_rows connections s = Return s'.
Proof.
  revert s. induction connections as [|c connections IH]; intros s H.
  - by eexists.
  - apply Forall_cons in H as [[pairs Hc] H]. simpl. rewrite Hc. simpl.
    apply IH. eapply Forall_impl; [exact H|].
    intros c' [pairs' Hc']. exists pairs'. by rewrite mesh_pairs_links.
Qed.

Lemma _connect_rows_each_accepted connections s s' :
  _connect_rows connections s = Return s' → Forall (connection_accepted s) connections.
Proof.
  revert s. induction connections as [|c connections IH]; intros s H; [done|].
  simpl in H. inv_bind H. constructor; [by exists a|].
  apply IH in H. eapply Forall_impl; [exact H|].
  intros c' [pairs' Hc']. exists pairs'. by rewrite mesh_pairs_links in Hc'.
Qed.

(** Property X16. Whether a connection is accepted does not depend on the
    other connections of the pattern: [_connect_rows] returns exactly when
    every connection is accepted in the state before the first one, and
    else it raises the exception of the first connection that is not,
    whatever the connections after it are. *)
Theorem connections_are_judged_alone connections s :
  (Forall (connection_accepted s) connections ↔
   ∃ s', _connect_rows connections s = Return s') ∧
  (∀ before connection after e,
     connections = before ++ connection :: after →
     Forall (connection_accepted s) before →
     mesh_pairs connection s = Raise e →
     _connect_rows connections s = Raise e).
Proof.
  split; [split|].
  - apply _connect_rows_accepted.
  - intros [s' H]. by eapply _connect_rows_each_accepted.
  - intros before c after e -> Hb He. revert s Hb He.
    induction before as [|b before IH]; intros s Hb He.
    + simpl. by rewrite He.
    + apply Forall_cons in Hb as [[pairs Hc] Hb]. simpl. rewrite Hc. simpl.
      apply IH; [|by rewrite mesh_pairs_links].
      eapply Forall_impl; [exact Hb|].
      intros c' [pairs' Hc']. exists pairs'. by rewrite mesh_pairs_links.
Qed.

Lemma first_connection_accepted :
  connection_accepted (state_at_connections first_pattern)
    (connection_of (PInt 1) (PInt 2)).
Proof.
  unfold connection_accepted.
  destruct (mesh_pairs (connection_of (PInt 1) (PInt 2))
              (state_at_connections first_pattern)) as [e|pairs] eqn:E;
    [by vm_compute in E|].
  by exists pairs.
Qed.

Lemma unknown_row_connection :
  mesh_pairs (connection_of (PInt 1) (PInt 9)) (state_at_connections first_pattern)
  = Raise (KeyError (PInt 9)).
Proof. vm_compute. reflexivity. Qed.

Lemma connections_with_unknown_row_raise :
  _connect_rows connections_with_unknown_row (state_at_connections first_pattern)
  = Raise (KeyError (PInt 9)).
Proof.
  apply (proj2 (connections_are_judged_alone connections_with_unknown_row
                  (state_at_connections first_pattern))
           [connection_of (PInt 1) (PInt 2)] (connection_of (PInt 1) (PInt 9))
           [connection_without_ends] (KeyError (PInt 9)) eq_refl).
  - constructor; [exact first_connection_accepted|constructor].
  - exact unknown_row_connection.
Defined.

(** ** Connections out of range, and the order of the phases *)

Lemma _connect_rows_app before rest s :
  _connect_rows (before ++ rest) s = _connect_rows before s ≫= _connect_rows rest.
Proof.
  revert s. induction before as [|c before IH]; intros s; [done|].
  simpl. destruct (mesh_pairs c s) as [e|pairs]; [done|]. simpl. apply IH.
Qed.

Lemma fill_patterns_Raise pre base post s collection s0 e :
  fill_patterns pre s = Return (collection, s0) →
  _pattern base s0 = Raise e →
  fill_patterns (pre ++ base :: post) s = Raise e.
Proof.
  revert s collection. induction pre as [|b pre IH]; intros s collection H He.
  - injection H as <- <-. simpl. by rewrite He.
  - simpl in H. inv_bind H. destruct a as [p s1]. inv_bind H. destruct a as [c s2].
    injection H as <- <-. simpl. rewrite Ha. simpl.
    by rewrite (IH _ _ Ha0 He).
Qed.

Lemma knitting_pattern_set_Raise values s pre base post collection s0 e :
  patterns_of_set values = pre ++ base :: post →
  fill_patterns pre (new_arena (_start s)) = Return (collection, s0) →
  _pattern base s0 = Raise e →
  knitting_pattern_set values s = Raise e.
Proof.
  intros Hp H He. rewrite knitting_pattern_set_unfold, Hp.
  by rewrite (fill_patterns_Raise _ _ _ _ _ _ _ H He).
Qed.

Lemma _pattern_connection_Raise base s0 rs s3 before connection after s e :
  rows_finished base s0 = Return (rs, s3) →
  connections_of_pattern base = before ++ connection :: after →
  _connect_rows before s3 = Return s →
  mesh_pairs connection s = Raise e →
  _pattern base s0 = Raise e.
Proof.
  intros Hr Hc Hb He. rewrite _pattern_phases, Hr. simpl. unfold connect_and_build.
  rewrite Hc, _connect_rows_app, Hb. simpl. by rewrite He.
Qed.

Section out_of_range.
Variables (connection : connection_desc) (s : state).
Variables (from to : endpoint_desc) (from_id to_id : pyval) (fr tr : nat).
Hypothesis Hfrom : cd_from connection = Some from.
Hypothesis Hfrom_id : ed_id from = Some from_id.
Hypothesis Hfrom_row : id_cache_get (_to_id from_id) s = Return fr.
Hypothesis Hto : cd_to connection = Some to.
Hypothesis Hto_id : ed_id to = Some to_id.
Hypothesis Hto_row : id_cache_get (_to_id to_id) s = Return tr.

Let from_row := rows s !!! fr.
Let to_row := rows s !!! tr.
Let from_start := default DEFAULT_START (ed_start from).
Let to_start := default DEFAULT_START (ed_start to).
Let count :=
  default (Z.min (number_of_produced_meshes from_row - from_start)
                 (number_of_consumed_meshes to_row - to_start))
          (cd_meshes connection).
Let source_meshes := row_produced_meshes from_row.
Let target_meshes := row_consumed_meshes to_row.
Let cut_from :=
  Z.min (from_start + count) (number_of_produced_meshes from_row) -
  Z.min from_start (number_of_produced_meshes from_row).
Let cut_to :=
  Z.min (to_start + count) (number_of_consumed_meshes to_row) -
  Z.min to_start (number_of_consumed_meshes to_row).
Let accepted := 0 ≤ from_start ∧ 0 ≤ to_start ∧ 0 ≤ count ∧ cut_from = cut_to.

(** Claim C1, as the code has it. For a connection whose stop index is
    beyond the meshes of its row, on either side, the slices are cut at the
    end of the mesh sequences. Resolving it raises an [AssertionError] when
    a start index or the number of meshes is negative or when the two cut
    slices differ in length, as they do when one side only is exceeded by a
    positive number of meshes; the exception is the one of [_pattern] and
    of [knitting_pattern_set], so no pattern is returned. Otherwise nothing
    is raised: the [i]-th pair is the produced mesh [from_start + i] of the
    source row and the consumed mesh [to_start + i] of the target row, as
    far as the cut slices reach, and the meshes of each pair are linked to
    each other. *)
Theorem out_of_range_connection :
  number_of_produced_meshes from_row < from_start + count ∨
  number_of_consumed_meshes to_row < to_start + count →
  (0 ≤ from_start → 0 ≤ to_start → 0 < count →
   ¬ (number_of_produced_meshes from_row < from_start + count ∧
      number_of_consumed_meshes to_row < to_start + count) →
   ¬ accepted) ∧
  (¬ accepted →
   mesh_pairs connection s = Raise AssertionError ∧
   (∀ connections,
      _connect_rows (connection :: connections) s = Raise AssertionError) ∧
   ∀ base s0 rs s3 before after,
     rows_finished base s0 = Return (rs, s3) →
     connections_of_pattern base = before ++ connection :: after →
     _connect_rows before s3 = Return s →
     _pattern base s0 = Raise AssertionError ∧
     ∀ values s_start pre post collection,
       patterns_of_set values = pre ++ base :: post →
       fill_patterns pre (new_arena (_start s_start)) = Return (collection, s0) →
       knitting_pattern_set values s_start = Raise AssertionError) ∧
  (accepted →
   ∃ pairs,
     mesh_pairs connection s = Return pairs ∧
     Z.of_nat (length pairs) = cut_from ∧
     (∀ i, (i < length pairs)%nat →
        ∃ produced_mesh consumed_mesh,
          source_meshes !! (Z.to_nat from_start + i)%nat = Some produced_mesh ∧
          target_meshes !! (Z.to_nat to_start + i)%nat = Some consumed_mesh ∧
          pairs !! i = Some (produced_mesh, consumed_mesh) ∧
          (symmetric (links s) → NoDup (source_meshes ++ target_meshes) →
           ∃ s', _connect_rows [connection] s = Return s' ∧
                 links s' !! produced_mesh = Some consumed_mesh ∧
                 links s' !! consumed_mesh = Some produced_mesh)) ∧
     ∀ connections,
       _connect_rows (connection :: connections) s =
       _connect_rows connections (set_links (connect_pairs pairs (links s)) s)).
Proof.
  intros Hout.
  pose proof (mesh_pairs_resolved connection s from to from_id to_id fr tr
                Hfrom Hfrom_id Hfrom_row Hto Hto_id Hto_row) as Hres.
  fold from_row to_row from_start to_start count in Hres.
  unfold accepted, cut_from, cut_to, source_meshes, target_meshes,
    number_of_produced_meshes, number_of_consumed_meshes in *.
  set (P := row_produced_meshes from_row) in *.
  set (C := row_consumed_meshes to_row) in *.
  split; [|split].
  - lia.
  - intros Hno.
    assert (mesh_pairs connection s = Raise AssertionError) as He.
    { rewrite Hres.
      destruct (decide (0 ≤ from_start ≤ from_start + count)) as [H1|H1];
        [|by rewrite (bool_decide_eq_false_2 _ H1)].
      rewrite (bool_decide_eq_true_2 _ H1). simpl.
      destruct (decide (0 ≤ to_start ≤ to_start + count)) as [H2|H2];
        [|by rewrite (bool_decide_eq_false_2 _ H2)].
      rewrite (bool_decide_eq_true_2 _ H2). simpl.
      rewrite bool_decide_eq_false_2; [done|].
      intros Hlen. apply Hno. rewrite <- !length_slice by done. lia. }
    split; [exact He|].
    split; [intros connections; simpl; by rewrite He|].
    intros base s0 rs s3 before after Hr Hc Hb.
    pose proof (_pattern_connection_Raise _ _ _ _ _ _ _ _ _ Hr Hc Hb He) as Hp.
    split; [exact Hp|].
    intros values s_start pre post collection Hv Hf.
    by eapply knitting_pattern_set_Raise.
  - intros (H1 & H2 & H3 & H4).
    assert (length (slice P from_start (from_start + count)) =
            length (slice C to_start (to_start + count))) as Hlen.
    { apply Nat2Z.inj. rewrite !length_slice by lia. exact H4. }
    assert (mesh_pairs connection s =
            Return (zip (slice P from_start (from_start + count))
                        (slice C to_start (to_start + count)))) as Hpairs.
    { rewrite Hres. rewrite !bool_decide_eq_true_2 by (done || lia). done. }
    eexists. split; [exact Hpairs|].
    assert (length (zip (slice P from_start (from_start + count))
                        (slice C to_start (to_start + count))) =
            length (slice P from_start (from_start + count))) as Hzip.
    { rewrite length_zip_with, <- Hlen. lia. }
    split; [|split].
    + rewrite Hzip. apply length_slice. lia.
    + intros i Hi. rewrite Hzip in Hi.
      destruct (lookup_lt_is_Some_2 _ _ Hi) as [p Hp].
      rewrite Hlen in Hi. destruct (lookup_lt_is_Some_2 _ _ Hi) as [c Hc].
      assert (zip (slice P from_start (from_start + count))
                  (slice C to_start (to_start + count)) !! i = Some (p, c)) as Hi'.
      { apply lookup_zip_with_Some. by exists p, c. }
      exists p, c.
      unfold slice in Hp, Hc.
      apply lookup_take_Some in Hp as [Hp _], Hc as [Hc _].
      rewrite lookup_drop in Hp, Hc.
      split; [done|]. split; [done|]. split; [done|].
      intros Hsym Hnd. simpl. rewrite Hpairs. simpl.
      eexists. split; [reflexivity|]. simpl.
      apply connect_pairs_lookup; [done| |by eapply list_elem_of_lookup_2].
      by apply slices_NoDup.
    + intros connections. simpl. by rewrite Hpairs.
Qed.
End out_of_range.

Lemma rows_finished_rows base s rs s3 :
  rows_finished base s = Return (rs, s3) →
  rs = seq (length (rows s)) (length (rows_of_pattern base)).
Proof.
  unfold rows_finished. intros H. inv_bind H. destruct a as [rs' s1].
  inv_bind H. inv_bind H. injection H as <- <-.
  by apply _rows_Return in Ha as (-> & _).
Qed.

(** Claim C7. In [_pattern] both queues are drained before the first
    connection is resolved. When the connections are resolved no
    inheritance and no instruction list is pending; every same-as reference
    of the pattern has been carried out, the row inherits from the row
    cached under the referenced id; every row of the pattern has the
    instructions that it gets from its descriptor or from the row it
    inherits from; and resolving a connection changes no row. Every pattern
    of a set starts with empty queues, so this holds for each of them. *)
Theorem queues_drained_before_connections :
  (∀ base s,
     match rows_finished base s with
     | Raise e => _pattern base s = Raise e
     | Return (rs, s3) =>
         _pattern base s = connect_and_build base rs s3 ∧
         rs = seq (length (rows s)) (length (rows_of_pattern base)) ∧
         _inheritance_todos s3 = [] ∧
         _instruction_todos s3 = [] ∧
         (_inheritance_todos s = [] →
          ∀ i values, rows_of_pattern base !! i = Some values →
                      inheritance_resolved s3 (length (rows s) + i) values) ∧
         (_instruction_todos s = [] → ∀ row, row ∈ rs → populated s3 row) ∧
         ∀ before connection after s',
           connections_of_pattern base = before ++ connection :: after →
           _connect_rows before s3 = Return s' →
           rows s' = rows s3 ∧
           _inheritance_todos s' = [] ∧ _instruction_todos s' = [] ∧
           _connect_rows (connections_of_pattern base) s3 =
           _connect_rows (connection :: after) s'
     end) ∧
  (∀ values s before base after parsed,
     patterns_of_set values = before ++ base :: after →
     knitting_pattern_set values s = Return parsed →
     ∃ collection s1 rs s3,
       fill_patterns before (new_arena (_start s)) = Return (collection, s1) ∧
       _inheritance_todos s1 = [] ∧ _instruction_todos s1 = [] ∧
       rows_finished base s1 = Return (rs, s3) ∧
       rs = seq (length (rows s1)) (length (rows_of_pattern base)) ∧
       (∀ i values, rows_of_pattern base !! i = Some values →
                    inheritance_resolved s3 (length (rows s1) + i) values) ∧
       ∀ row, row ∈ rs → populated s3 row).
Proof.
  split.
  - intros base s. rewrite _pattern_phases.
    destruct (rows_finished base s) as [e|[rs s3]] eqn:E; [done|].
    destruct (rows_finished_Return _ _ _ _ E) as [H1 H2].
    split; [done|]. split; [by eapply rows_finished_rows|].
    split; [done|]. split; [done|].
    split; [intros Hq i values Hi; by eapply rows_finished_inherited|].
    split; [intros Hq; by eapply rows_finished_populated|].
    intros before connection after s' Hc H.
    rewrite Hc. clear Hc E. revert s3 H1 H2 H.
    induction before as [|c before IH]; intros s3 H1 H2 H.
    + injection H as <-. done.
    + simpl in *. destruct (mesh_pairs c s3) as [e|pairs]; [done|]. simpl in *.
      by apply IH in H.
  - intros values s before base after [pattern_set s'] Hp H.
    apply knitting_pattern_set_Return in H as (collection & s0 & H & _).
    rewrite Hp in H. apply fill_patterns_app in H as (c1 & s1 & c2 & H1 & H2 & _).
    destruct (fill_patterns_queues _ _ _ _ H1) as [Hq1 Hq2]; [done|done|].
    simpl in H2. inv_bind H2. destruct a as [p s2]. clear H2.
    rewrite _pattern_phases in Ha. inv_bind Ha. destruct a as [rs s3].
    exists c1, s1, rs, s3. split; [done|]. split; [done|]. split; [done|].
    split; [done|]. split; [by eapply rows_finished_rows|].
    split; [intros i v Hi; by eapply rows_finished_inherited|].
    by eapply rows_finished_populated.
Qed.

Lemma inheriting_rows_populated :
  ∃ collection s1 rs s3,
    fill_patterns [] (new_arena (_start initial_state)) = Return (collection, s1) ∧
    _inheritance_todos s1 = [] ∧ _instruction_todos s1 = [] ∧
    rows_finished inheriting_pattern s1 = Return (rs, s3) ∧
    rs = seq (length (rows s1)) (length (rows_of_pattern inheriting_pattern)) ∧
    (∀ i values, rows_of_pattern inheriting_pattern !! i = Some values →
                 inheritance_resolved s3 (length (rows s1) + i) values) ∧
    ∀ row, row ∈ rs → populated s3 row.
Proof.
  destruct (knitting_pattern_set inheriting_set initial_state) as [e|parsed] eqn:E.
  - vm_compute in E. discriminate.
  - exact (proj2 queues_drained_before_connections inheriting_set initial_state
             [] inheriting_pattern [] parsed eq_refl E).
Defined.

Lemma short_pattern_rows_finished :
  ∃ rs, rows_finished short_pattern initial_state
        = Return (rs, state_at_connections short_pattern).
Proof.
  unfold state_at_connections.
  destruct (rows_finished short_pattern initial_state) as [e|[rs s3]] eqn:E;
    [by vm_compute in E|].
  by exists rs.
Qed.

Lemma short_connection_raises :
  (mesh_pairs short_connection (state_at_connections short_pattern)
   = Raise AssertionError ∧
   _pattern short_pattern initial_state = Raise AssertionError ∧
   knitting_pattern_set short_set initial_state = Raise AssertionError) ∧
  (∃ pairs s' produced_mesh consumed_mesh,
     mesh_pairs overrun_connection (state_at_connections overrun_pattern)
     = Return pairs ∧
     length pairs = 4%nat ∧
     pairs !! 0%nat = Some (produced_mesh, consumed_mesh) ∧
     _connect_rows [overrun_connection] (state_at_connections overrun_pattern)
     = Return s' ∧
     links s' !! produced_mesh = Some consumed_mesh ∧
     links s' !! consumed_mesh = Some produced_mesh).
Proof.
  split.
  - destruct short_pattern_rows_finished as [rs Hr].
    edestruct (out_of_range_connection short_connection
                 (state_at_connections short_pattern)) as (_ & H & _).
    + reflexivity.
    + reflexivity.
    + by vm_compute.
    + reflexivity.
    + reflexivity.
    + by vm_compute.
    + right. by vm_compute.
    + destruct H as (He & _ & Hp).
      { vm_compute. intros (_ & _ & _ & Heq). discriminate. }
      destruct (Hp short_pattern initial_state rs _ [] [] Hr eq_refl eq_refl)
        as [Hpattern Hset].
      exact (conj He (conj Hpattern
                        (Hset short_set initial_state [] [] [] eq_refl eq_refl))).
  - edestruct (out_of_range_connection overrun_connection
                 (state_at_connections overrun_pattern)) as (_ & _ & H).
    + reflexivity.
    + reflexivity.
    + by vm_compute.
    + reflexivity.
    + reflexivity.
    + by vm_compute.
    + left. by vm_compute.
    + destruct H as (pairs & Hp & Hl & Hi & _).
      { vm_compute. repeat split; discriminate. }
      assert (length pairs = 4%nat) as Hlen.
      { apply Nat2Z.inj. rewrite Hl. by vm_compute. }
      destruct (Hi 0%nat) as (p & c & _ & _ & H0 & Hlink).
      { rewrite Hlen. lia. }
      destruct Hlink as (s' & Hs' & H1 & H2).
      { intros a b Hab. vm_compute in Hab. discriminate. }
      { apply (bool_decide_unpack _). by vm_compute. }
      exists pairs, s', p, c.
      exact (conj Hp (conj Hlen (conj H0 (conj Hs' (conj H1 H2))))).
Defined.
